(** * h_utils: telephone-number pattern expansion and IP range membership

    A shallow embedding of [src/h_utils.py].  The development follows the
    Python text: the regular expression [FULL_NUMBER_RE] is kept as data and
    run by a small matcher, [re.finditer] scans the pattern left to right,
    the loop body turns the captured groups of each match into a [range],
    [itertools.product] combines the ranges and the generator renders each
    tuple with an f-string.  Python exceptions are the [Raise] outcomes of an
    error monad. *)

From Stdlib Require Import List Bool Arith ZArith Lia.
From Stdlib Require Import Strings.Ascii Strings.String Numbers.DecimalString.
From Stdlib Require Import Sorting.Sorted.
Import ListNotations.

Open Scope string_scope.
Open Scope list_scope.

(** ** Exceptions and the error monad *)

Inductive exn : Type :=
| ValueError
| IndexError
| AttributeError.

Inductive result (A : Type) : Type :=
| Ok (a : A)
| Raise (e : exn).

Arguments Ok {A} a.
Arguments Raise {A} e.

Definition bind {A B : Type} (r : result A) (k : A -> result B) : result B :=
  match r with
  | Ok a => k a
  | Raise e => Raise e
  end.

Notation "x <- r ;; k" := (bind r (fun x => k))
  (at level 61, r at next level, right associativity).

(** ** Python primitives used by [expand_tn] *)

Module Py.

(** [int(s)] on a string.  The model accepts an optional minus sign
    followed by one or more ASCII decimal digits and raises [ValueError] on
    anything else.  Python accepts more spellings (surrounding blanks, a
    plus sign, underscores); wherever the model returns a number, Python
    returns the same number. *)
Definition int (s : string) : result Z :=
  match NilZero.int_of_string s with
  | Some d => Ok (Z.of_int d)
  | None => Raise ValueError
  end.

(** [f"{n}"] for an [int]: its decimal spelling. *)
Definition format (n : Z) : string :=
  NilZero.string_of_int (Z.to_int n).

(** [list(range(start, stop))]: empty as soon as [stop <= start]. *)
Definition range (start stop : Z) : list Z :=
  map (fun i => (start + Z.of_nat i)%Z) (seq 0 (Z.to_nat (stop - start))).

(** [l[i]] for a non-negative index. *)
Definition getitem {A : Type} (l : list A) (i : nat) : result A :=
  match nth_error l i with
  | Some x => Ok x
  | None => Raise IndexError
  end.

(** [[x for x in t if x is not None]]. *)
Fixpoint not_none {A : Type} (t : list (option A)) : list A :=
  match t with
  | [] => []
  | Some x :: t' => x :: not_none t'
  | None :: t' => not_none t'
  end.

(** [itertools.product] applied to the unpacked [pools], after the reference
    implementation in the library's documentation:
    [result = [[]]]; for each pool,
    [result = [x + [y] for x in result for y in pool]]. *)
Definition product_step {A : Type} (acc : list (list A)) (pool : list A)
  : list (list A) :=
  flat_map (fun x => map (fun y => x ++ [y]) pool) acc.

Definition product {A : Type} (pools : list (list A)) : list (list A) :=
  fold_left product_step pools [[]].

End Py.

(** ** The regular expression engine, for the fragment the source uses

    A pattern string is a [string], scanned as its list of characters.  A
    character outside ASCII is a run of bytes above 127; no alternative of
    the source's expression matches such a byte, as none matches the
    character in Python. *)

Module Re.

(** One character position of a pattern. *)
Inductive item : Type :=
| Chr (c : ascii)            (* a literal character, escaped or not *)
| Cls (lo hi : ascii).       (* a class [[lo-hi]] *)

(** An atom is an item, possibly wrapped in a numbered capturing group. *)
Inductive atom : Type :=
| Plain (i : item)
| Group (n : nat) (i : item).

(** An alternative is a sequence of atoms, a regex is [alt1|alt2|...]. *)
Definition alternative : Type := list atom.

Record regex : Type := MkRegex {
  alternatives : list alternative;
  ngroups : nat
}.

Definition item_matches (i : item) (c : ascii) : bool :=
  match i with
  | Chr c' => Ascii.eqb c' c
  | Cls lo hi =>
      (N_of_ascii lo <=? N_of_ascii c)%N && (N_of_ascii c <=? N_of_ascii hi)%N
  end.

Definition captures : Type := list (nat * string).

(** Match the atoms of one alternative at the head of [s]; on success the
    captured groups and the number of characters consumed. *)
Fixpoint match_seq (alt : alternative) (s : list ascii) (caps : captures)
  : option (captures * nat) :=
  match alt with
  | [] => Some (caps, 0)
  | a :: alt' =>
      match s with
      | [] => None
      | c :: s' =>
          let '(i, caps') :=
            match a with
            | Plain i => (i, caps)
            | Group n i => (i, (n, String c EmptyString) :: caps)
            end in
          if item_matches i c then
            match match_seq alt' s' caps' with
            | Some (caps'', k) => Some (caps'', S k)
            | None => None
            end
          else None
      end
  end.

(** Alternation: the first alternative that matches wins. *)
Fixpoint match_alts (alts : list alternative) (s : list ascii)
  : option (captures * nat) :=
  match alts with
  | [] => None
  | alt :: alts' =>
      match match_seq alt s [] with
      | Some r => Some r
      | None => match_alts alts' s
      end
  end.

Fixpoint lookup (n : nat) (caps : captures) : option string :=
  match caps with
  | [] => None
  | (k, v) :: caps' => if Nat.eqb k n then Some v else lookup n caps'
  end.

(** [match.groups()]: one entry per group of the regex, [None] for a group
    that took no part in the match. *)
Definition groups (re : regex) (caps : captures) : list (option string) :=
  map (fun n => lookup n caps) (seq 1 (ngroups re)).

(** A match anchored at the head of [s]: its groups and its length. *)
Definition match_here (re : regex) (s : list ascii)
  : option (list (option string) * nat) :=
  match match_alts (alternatives re) s with
  | Some (caps, k) => Some (groups re caps, k)
  | None => None
  end.

(** [re.finditer]: the non-overlapping matches, scanning left to right.
    [skip] counts the characters still covered by the previous match; a
    position where nothing matches is passed over. *)
Fixpoint finditer_from (re : regex) (skip : nat) (s : list ascii)
  : list (list (option string)) :=
  match s with
  | [] => []
  | _ :: s' =>
      match skip with
      | S k => finditer_from re k s'
      | O =>
          match match_here re s with
          | Some (g, len) => g :: finditer_from re (pred len) s'
          | None => finditer_from re 0 s'
          end
      end
  end.

Definition finditer (re : regex) (s : string) : list (list (option string)) :=
  finditer_from re 0 (list_ascii_of_string s).

End Re.

(** ** [expand_tn] *)

(** [FULL_NUMBER_RE = r"\[([0-9])-([0-9])\]|(X)|([0-9])"] *)
Definition FULL_NUMBER_RE : Re.regex :=
  Re.MkRegex
    [ [ Re.Plain (Re.Chr "[");
        Re.Group 1 (Re.Cls "0" "9");
        Re.Plain (Re.Chr "-");
        Re.Group 2 (Re.Cls "0" "9");
        Re.Plain (Re.Chr "]") ];
      [ Re.Group 3 (Re.Chr "X") ];
      [ Re.Group 4 (Re.Cls "0" "9") ] ]
    4.

(** The body of the [for match in ...] loop: from the groups of one match to
    the list appended to [ranges]. *)
Definition position_range (match_groups : list (option string))
  : result (list Z) :=
  let m := Py.not_none match_groups in
  if Nat.eqb (List.length m) 1 then
    m0 <- Py.getitem m 0 ;;
    if String.eqb m0 "X" then
      Ok (Py.range 0 10)
    else
      start <- Py.int m0 ;;
      Ok (Py.range start (start + 1))
  else
    m0 <- Py.getitem m 0 ;;
    start <- Py.int m0 ;;
    m1 <- Py.getitem m 1 ;;
    stop <- Py.int m1 ;;
    Ok (Py.range start (stop + 1)).

(** The first loop, with [ranges] as the accumulator it appends to. *)
Fixpoint collect_ranges (matches : list (list (option string)))
  (ranges : list (list Z)) : result (list (list Z)) :=
  match matches with
  | [] => Ok ranges
  | g :: matches' =>
      r <- position_range g ;;
      collect_ranges matches' (ranges ++ [r])
  end.

Definition parse_ranges (tn : string) : result (list (list Z)) :=
  collect_ranges (Re.finditer FULL_NUMBER_RE tn) [].

(** The inner loop over one tuple [x] of the product. *)
Definition render (x : list Z) : string :=
  fold_left (fun single_expanded_number xx =>
               (single_expanded_number ++ Py.format xx)%string) x "".

(** The strings [expand_tn(tn)] yields, in order, or the exception raised
    while the generator runs. *)
Definition expand_tn (tn : string) : result (list string) :=
  ranges <- parse_ranges tn ;;
  Ok (map render (Py.product ranges)).

(** ** The generator object

    Calling [expand_tn] runs nothing: it returns a generator.  The first
    [next] runs the body up to the first [yield]; each later [next] resumes
    the loop over the product. *)

Module Generator.

Inductive state : Type :=
| Created (tn : string)
| Suspended (pending : list (list Z))
| Finished.

Inductive outcome : Type :=
| Yield (s : string)
| StopIteration
| Raised (e : exn).

Definition resume (pending : list (list Z)) : outcome * state :=
  match pending with
  | [] => (StopIteration, Finished)
  | x :: pending' => (Yield (render x), Suspended pending')
  end.

Definition next (g : state) : outcome * state :=
  match g with
  | Created tn =>
      match parse_ranges tn with
      | Ok ranges => resume (Py.product ranges)
      | Raise e => (Raised e, Finished)
      end
  | Suspended pending => resume pending
  | Finished => (StopIteration, Finished)
  end.

(** [list(g)]: call [next] until the generator stops or raises; [None]
    when [fuel] calls were not enough. *)
Fixpoint drain (fuel : nat) (g : state) : option (result (list string)) :=
  match fuel with
  | O => None
  | S fuel' =>
      match next g with
      | (Yield s, g') =>
          match drain fuel' g' with
          | Some (Ok l) => Some (Ok (s :: l))
          | other => other
          end
      | (StopIteration, _) => Some (Ok [])
      | (Raised e, _) => Some (Raise e)
      end
  end.

End Generator.

(** ** [ip_in_range] and [ip_version]

    The [ipaddress] classes are kept abstract enough for the control flow of
    the two functions: an address is a version and an integer, a network is a
    version, a network address with its scope id (the zone of an IPv6
    address such as [fe80::%eth0], absent in IPv4) and a prefix length.  The
    scope id of the address [ip] is not kept: the function reads the address
    through [int(ip)] and [isinstance] only.  The two string parsers
    [ipaddress.IPv4Network] and [ipaddress.IPv6Network] are parameters. *)

Module Ip.

Inductive version : Type := V4 | V6.

Definition version_eqb (v w : version) : bool :=
  match v, w with
  | V4, V4 | V6, V6 => true
  | _, _ => false
  end.

Definition max_prefixlen (v : version) : Z :=
  match v with V4 => 32 | V6 => 128 end.

Record address : Type := MkAddress {
  addr_version : version;
  addr_int : Z
}.

Record network : Type := MkNetwork {
  net_version : version;
  network_address : Z;
  prefixlen : Z;
  scope_id : option string
}.

(** The scope id part of [ip_addr_func(...) == range.network_address]: the
    left side is built from an integer and has no scope id.  [IPv6Address]
    compares the scope ids as well, [IPv4Address] has none. *)
Definition same_scope (v : version) (n : network) : bool :=
  match v with
  | V4 => true
  | V6 =>
      match scope_id n with
      | None => true
      | Some _ => false
      end
  end.

(** [int(net.netmask)]: the [prefixlen] leading bits set. *)
Definition netmask (n : network) : Z :=
  let w := max_prefixlen (net_version n) in
  Z.lxor (Z.ones w) (Z.ones (w - prefixlen n)).

(** What the variables [ip] and [range] may hold while the function runs. *)
Inductive value : Type :=
| Str (s : string)
| Addr (a : address)
| Net (n : network)
| NoneVal.

Section WithParsers.

(** [ipaddress.IPv4Network(s)] and [ipaddress.IPv6Network(s)] on a string:
    the network address and prefix length, for IPv6 also the scope id, or
    [None] when the constructor raises. *)
Variable IPv4Network : string -> option (Z * Z).
Variable IPv6Network : string -> option (Z * Z * option string).

Definition ip_version (ip : string) : value :=
  match IPv4Network ip with
  | Some (a, p) => Net (MkNetwork V4 a p None)
  | None =>
      match IPv6Network ip with
      | Some (a, p, sc) => Net (MkNetwork V6 a p sc)
      | None => NoneVal
      end
  end.

(** [isinstance(ip, ipaddress.IPvNAddress) and
    isinstance(range, ipaddress.IPvNNetwork)] *)
Definition both_of (v : version) (ip range : value) : bool :=
  match ip, range with
  | Addr a, Net n =>
      version_eqb (addr_version a) v && version_eqb (net_version n) v
  | _, _ => false
  end.

(** The result is [Some true], [Some false] or [None] for Python's
    [True], [False] and [None]. *)
Definition ip_in_range (ip range : value) : result (option bool) :=
  ip <- match ip with
        | Str s =>
            match ip_version s with
            | Net n =>
                if (prefixlen n =? 32)%Z
                then Ok (Addr (MkAddress (net_version n) (network_address n)))
                else Ok (Net n)
            | _ => Raise AttributeError
            end
        | _ => Ok ip
        end ;;
  let range := match range with
               | Str s => ip_version s
               | _ => range
               end in
  let ip_addr_func := None in
  let ip_addr_func := if both_of V4 ip range then Some V4 else ip_addr_func in
  let ip_addr_func := if both_of V6 ip range then Some V6 else ip_addr_func in
  match ip_addr_func, ip, range with
  | Some v, Addr a, Net n =>
      let ip_network := MkAddress v (Z.land (addr_int a) (netmask n)) in
      if version_eqb (addr_version ip_network) (net_version n)
         && (addr_int ip_network =? network_address n)%Z
         && same_scope v n
      then Ok (Some true)
      else Ok (Some false)
  | _, _, _ => Ok None
  end.

End WithParsers.

End Ip.

(** ** [get_input]

    The console is the list of lines still to be read and the list of what
    was written.  [input(prompt)] writes the prompt and takes the next line,
    or raises [EOFError] when no line is left.  [check_function] is a pure
    predicate; [return_iterable], used only for its truth value, is a
    boolean.  The set [temp] is a duplicate-free list, its elements in the
    order of first insertion. *)

Module Console.

Inductive value : Type :=
| NoneVal
| Str (s : string)
| SetVal (l : list string).

Inductive event : Type :=
| Prompt (text : string)
| Print (text : string).

Inductive raised : Type :=
| EOFError
| NoAttribute.

Inductive outcome : Type :=
| Returned (return_dict : list (string * value)) (console : list event)
           (stdin : list string)
| Raised (e : raised) (console : list event).

(** [temp.add(x)]; only a set has the method. *)
Definition add (temp : value) (x : string) : option value :=
  match temp with
  | SetVal l =>
      Some (SetVal (if existsb (String.eqb x) l then l else l ++ [x]))
  | _ => None
  end.

(** Where one pass through the loop body leaves the loop. *)
Inductive flow : Type :=
| Next (temp : value) (console : list event)
| Break (temp : value) (console : list event)
| Fail (e : raised) (console : list event).

(** [if return_iterable: temp.add(user_input) else: temp = user_input; break] *)
Definition keep (return_iterable : bool) (user_input : string)
  (temp : value) (console : list event) : flow :=
  if return_iterable then
    match add temp user_input with
    | Some temp' => Next temp' console
    | None => Fail NoAttribute console
    end
  else Break (Str user_input) console.

(** The body of the [while] loop, for a non-empty [user_input]. *)
Definition body (return_iterable : bool) (help : string)
  (check_function : option (string -> bool)) (user_input : string)
  (temp : value) (console : list event) : flow :=
  let first :=
    if match check_function with
       | Some f => f user_input
       | None => false
       end
    then keep return_iterable user_input temp console
    else Next temp (console ++ [Print help]) in
  match first with
  | Next temp console =>
      match check_function with
      | None => keep return_iterable user_input temp console
      | Some _ => Next temp console
      end
  | other => other
  end.

(** [while user_input := input(prompt): ...], the final [temp] with the
    console and the unread lines. *)
Fixpoint loop (return_iterable : bool) (prompt help : string)
  (check_function : option (string -> bool)) (stdin : list string)
  (temp : value) (console : list event)
  : (raised + value) * list event * list string :=
  match stdin with
  | [] => (inl EOFError, console ++ [Prompt prompt], [])
  | user_input :: stdin' =>
      let console := console ++ [Prompt prompt] in
      if String.eqb user_input "" then (inr temp, console, stdin')
      else
        match body return_iterable help check_function user_input temp console with
        | Next temp console =>
            loop return_iterable prompt help check_function stdin' temp console
        | Break temp console => (inr temp, console, stdin')
        | Fail e console => (inl e, console, stdin')
        end
  end.

Definition get_input (name : string) (return_iterable : bool)
  (prompt : option string) (help : string)
  (check_function : option (string -> bool)) (stdin : list string) : outcome :=
  let temp := if return_iterable then SetVal [] else NoneVal in
  let prompt := match prompt with
                | None => (name ++ ": ")%string
                | Some p => p
                end in
  match loop return_iterable prompt help check_function stdin temp [] with
  | (inr temp, console, stdin') => Returned [(name, temp)] console stdin'
  | (inl e, console, _) => Raised e console
  end.

End Console.

(** * Specification side *)

(** ** Tokens of the pattern grammar

    The grammar of a pattern, as the specification words it: a bracketed
    range of two digits, the wildcard letter, or a literal digit; any other
    character is passed over. *)

Definition is_digit (c : ascii) : bool := Re.item_matches (Re.Cls "0" "9") c.

Definition digit_val (c : ascii) : Z := Z.of_N (N_of_ascii c) - 48.

Definition digit_chr (d : Z) : ascii := ascii_of_N (Z.to_N (d + 48)).

Inductive token : Type :=
| TRange (a b : ascii)
| TWild
| TLit (d : ascii).

Definition all_digits : list Z := [0; 1; 2; 3; 4; 5; 6; 7; 8; 9]%Z.

(** The digits [n] with [a <= n <= b], in ascending order. *)
Definition interval (a b : Z) : list Z :=
  filter (fun n => (a <=? n)%Z && (n <=? b)%Z) all_digits.

Definition digit_set (t : token) : list Z :=
  match t with
  | TLit d => [digit_val d]
  | TWild => all_digits
  | TRange a b => interval (digit_val a) (digit_val b)
  end.

(** One token at the head of the input, and what follows it. *)
Inductive Recognizes : list ascii -> token -> list ascii -> Prop :=
| Rec_range a b rest :
    is_digit a = true -> is_digit b = true ->
    Recognizes ("["%char :: a :: "-"%char :: b :: "]"%char :: rest)
               (TRange a b) rest
| Rec_wild rest :
    Recognizes ("X"%char :: rest) TWild rest
| Rec_lit d rest :
    is_digit d = true ->
    Recognizes (d :: rest) (TLit d) rest.

(** The left-to-right scan: take a token where one is recognized, pass over
    one character where none is. *)
Inductive Tokenizes : list ascii -> list token -> Prop :=
| Tok_end : Tokenizes [] []
| Tok_token s t rest ts :
    Recognizes s t rest -> Tokenizes rest ts -> Tokenizes s (t :: ts)
| Tok_skip c rest ts :
    (forall t r, ~ Recognizes (c :: rest) t r) ->
    Tokenizes rest ts -> Tokenizes (c :: rest) ts.

Definition Tokens (tn : string) (ts : list token) : Prop :=
  Tokenizes (list_ascii_of_string tn) ts.

(** The groups tuple a match of [FULL_NUMBER_RE] reports for a token. *)
Definition groups_of (t : token) : list (option string) :=
  match t with
  | TRange a b =>
      [Some (String a EmptyString); Some (String b EmptyString); None; None]
  | TWild => [None; None; Some "X"; None]
  | TLit d => [None; None; None; Some (String d EmptyString)]
  end.

(** ** The Cartesian product, leftmost position slowest *)

Fixpoint cartesian {A : Type} (pools : list (list A)) : list (list A) :=
  match pools with
  | [] => [[]]
  | pool :: pools' =>
      flat_map (fun y => map (cons y) (cartesian pools')) pool
  end.

(** Lexicographic order on tuples of digits, first position most significant. *)
Inductive lex_lt : list Z -> list Z -> Prop :=
| lex_head x y xs ys : (x < y)%Z -> lex_lt (x :: xs) (y :: ys)
| lex_tail x xs ys : lex_lt xs ys -> lex_lt (x :: xs) (x :: ys).

(** The number of characters a token takes in the pattern. *)
Definition token_len (t : token) : nat :=
  match t with
  | TRange _ _ => 5
  | TWild | TLit _ => 1
  end.

(** Every token of a tokenization is made of digits. *)
Definition token_ok (t : token) : Prop :=
  match t with
  | TRange a b => is_digit a = true /\ is_digit b = true
  | TWild => True
  | TLit d => is_digit d = true
  end.

(** The string whose characters are the decimal digits of a tuple. *)
Definition digits_string (x : list Z) : string :=
  string_of_list_ascii (map digit_chr x).

(** The size of a token's digit set, as a formula; an inverted range is
    empty. *)
Definition cardinality (t : token) : Z :=
  match t with
  | TLit _ => 1
  | TWild => 10
  | TRange a b => Z.max 0 (digit_val b - digit_val a + 1)
  end.

(** The size the specification's sentence gives a token: [b - a + 1] for
    every bracketed range. *)
Definition claimed_cardinality (t : token) : Z :=
  match t with
  | TLit _ => 1
  | TWild => 10
  | TRange a b => digit_val b - digit_val a + 1
  end.

(** The characters of a bracketed range, as the scan sees them. *)
Definition range_text (a b : ascii) : list ascii :=
  ["["; a; "-"; b; "]"]%char.

(** A stand-in for [ipaddress.IPv6Network] on the one string the example
    needs: ["2001:db8::1"] is the address [0x20010db8 << 96 | 1] with prefix
    length 128. *)
Definition example_IPv6Network (s : string)
  : option (Z * Z * option string) :=
  if String.eqb s "2001:db8::1"
  then Some (42540766411282592856903984951653826561, 128, None)%Z
  else None.

(** The text of a bracketed range. *)
Definition bracketed (a b : ascii) : string :=
  String "[" (String a (String "-" (String b (String "]" EmptyString)))).

(** ** Well-formed addresses and networks

    What the [ipaddress] constructors guarantee of their objects: an address
    fits the width of its version, a prefix length lies between 0 and that
    width, a network address has no host bit set, and an IPv4 network has no
    scope id. *)

Definition host_bits (n : Ip.network) : Z :=
  Ip.max_prefixlen (Ip.net_version n) - Ip.prefixlen n.

Definition wf_address (a : Ip.address) : Prop :=
  (0 <= Ip.addr_int a < 2 ^ Ip.max_prefixlen (Ip.addr_version a))%Z.

Definition wf_network (n : Ip.network) : Prop :=
  (0 <= Ip.prefixlen n <= Ip.max_prefixlen (Ip.net_version n))%Z
  /\ (0 <= Ip.network_address n < 2 ^ Ip.max_prefixlen (Ip.net_version n))%Z
  /\ (Ip.network_address n mod 2 ^ host_bits n = 0)%Z
  /\ (Ip.net_version n = Ip.V4 -> Ip.scope_id n = None).

(** ** Calls of [next] in a row *)

(** The generator after [n] calls of [next]. *)
Fixpoint advance (n : nat) (g : Generator.state) : Generator.state :=
  match n with
  | O => g
  | S n' => advance n' (snd (Generator.next g))
  end.

(** ** Strings in Python's order, and the end of a pattern *)

Definition string_lt (s1 s2 : string) : Prop := String.compare s1 s2 = Lt.

(** The last [n] characters of [s] (all of [s] when it is shorter). *)
Definition last_chars (n : nat) (s : string) : list ascii :=
  skipn (String.length s - n) (list_ascii_of_string s).

(** ** Characters that count in a pattern without brackets *)

Definition significant (c : ascii) : bool :=
  is_digit c || Ascii.eqb c "X".

Definition token_of_char (c : ascii) : token :=
  if Ascii.eqb c "X" then TWild else TLit c.

(** The pattern with every character dropped that is neither a digit nor
    the wildcard letter. *)
Definition strip (tn : string) : string :=
  string_of_list_ascii (filter significant (list_ascii_of_string tn)).

(** ** The console of [get_input] *)

(** Whether the validator, when there is one, accepts a line. *)
Definition accepted (check_function : option (string -> bool)) (x : string)
  : Prop :=
  match check_function with
  | Some f => f x = true
  | None => True
  end.

(** Whether a line is kept: the validator's verdict, or every line when
    there is no validator. *)
Definition kept (check_function : option (string -> bool)) (x : string)
  : bool :=
  match check_function with
  | Some f => f x
  | None => true
  end.

(** What the loop writes after reading a non-empty line: [help] when the
    validator rejects the line, and also when there is no validator. *)
Definition answer (check_function : option (string -> bool)) (help x : string)
  : list Console.event :=
  match check_function with
  | Some f => if f x then [] else [Console.Print help]
  | None => [Console.Print help]
  end.

(** The prompt a call shows. *)
Definition shown_prompt (name : string) (prompt : option string) : string :=
  match prompt with
  | None => (name ++ ": ")%string
  | Some p => p
  end.

(** * Lemmas *)

(** ** Digits *)

Lemma is_digit_cases (c : ascii) :
  is_digit c = true ->
  In c ["0"; "1"; "2"; "3"; "4"; "5"; "6"; "7"; "8"; "9"]%char.
Proof.
  destruct c as [[] [] [] [] [] [] [] []]; vm_compute; intros H;
    try discriminate H; tauto.
Qed.

Ltac digit_cases H :=
  apply is_digit_cases in H; simpl in H;
  repeat (destruct H as [H | H]; [subst | ]); [ .. | contradiction ].

Lemma digit_val_bounds (c : ascii) :
  is_digit c = true -> (0 <= digit_val c <= 9)%Z.
Proof. intros H. digit_cases H; vm_compute; split; discriminate. Qed.

Lemma int_digit (c : ascii) :
  is_digit c = true -> Py.int (String c EmptyString) = Ok (digit_val c).
Proof. intros H. digit_cases H; reflexivity. Qed.

Lemma digit_not_wild (c : ascii) :
  is_digit c = true -> String.eqb (String c EmptyString) "X" = false.
Proof. intros H. digit_cases H; reflexivity. Qed.

Lemma small_cases (d : Z) :
  (0 <= d <= 9)%Z -> In d all_digits.
Proof. unfold all_digits; simpl. lia. Qed.

Ltac small_cases H :=
  apply small_cases in H; simpl in H;
  repeat (destruct H as [H | H]; [subst | ]); [ .. | contradiction ].

Lemma format_digit (d : Z) :
  (0 <= d <= 9)%Z -> Py.format d = String (digit_chr d) EmptyString.
Proof. intros H. small_cases H; reflexivity. Qed.

Lemma is_digit_chr (d : Z) :
  (0 <= d <= 9)%Z -> is_digit (digit_chr d) = true.
Proof. intros H. small_cases H; reflexivity. Qed.

Lemma digit_val_chr (d : Z) :
  (0 <= d <= 9)%Z -> digit_val (digit_chr d) = d.
Proof. intros H. small_cases H; reflexivity. Qed.

Lemma range_interval (a b : Z) :
  (0 <= a <= 9)%Z -> (0 <= b <= 9)%Z -> Py.range a (b + 1) = interval a b.
Proof. intros Ha Hb. small_cases Ha; small_cases Hb; reflexivity. Qed.

Lemma range_single (a : Z) : Py.range a (a + 1) = [a].
Proof.
  unfold Py.range. replace (a + 1 - a)%Z with 1%Z by lia.
  simpl. f_equal. lia.
Qed.

(** ** The matcher on [FULL_NUMBER_RE] *)

Lemma recognizes_shorter (s : list ascii) (t : token) (rest : list ascii) :
  Recognizes s t rest -> List.length rest < List.length s.
Proof. intros H; inversion H; subst; simpl; lia. Qed.

Lemma recognizes_functional (s : list ascii) (t t' : token)
      (r r' : list ascii) :
  Recognizes s t r -> Recognizes s t' r' -> t = t' /\ r = r'.
Proof.
  intros H H'; inversion H; subst; inversion H'; subst; auto;
    match goal with
    | D : is_digit _ = true |- _ => now vm_compute in D
    end.
Qed.

Lemma recognizes_skipn (s : list ascii) (t : token) (rest : list ascii) :
  Recognizes s t rest -> skipn (token_len t) s = rest.
Proof. intros H; inversion H; reflexivity. Qed.

Lemma match_here_recognizes (s : list ascii) (t : token) (rest : list ascii) :
  Recognizes s t rest ->
  Re.match_here FULL_NUMBER_RE s = Some (groups_of t, token_len t).
Proof.
  intros H; inversion H as [a b r Ha Hb | r | d r Hd]; subst.
  - digit_cases Ha; digit_cases Hb; reflexivity.
  - reflexivity.
  - digit_cases Hd; reflexivity.
Qed.

Lemma recognizes_dec (s : list ascii) :
  (exists t r, Recognizes s t r) \/ (forall t r, ~ Recognizes s t r).
Proof.
  destruct s as [| c s].
  { right; intros t r H; inversion H. }
  destruct (is_digit c) eqn:Hd.
  { left; eexists; eexists; apply Rec_lit; exact Hd. }
  destruct (Ascii.eqb c "X") eqn:Hx.
  { apply Ascii.eqb_eq in Hx; subst c. left; eexists; eexists; apply Rec_wild. }
  assert (Hnx : c <> "X"%char) by (intros E; apply Ascii.eqb_neq in Hx; auto).
  destruct s as [| a [| m [| b [| e s]]]];
    try (right; intros t r H; inversion H; subst; congruence).
  destruct (Ascii.eqb c "[") eqn:Hb1; destruct (is_digit a) eqn:Ha;
    destruct (Ascii.eqb m "-") eqn:Hm; destruct (is_digit b) eqn:Hb;
    destruct (Ascii.eqb e "]") eqn:He;
    try (right; intros t r H; inversion H; subst;
         rewrite ?Ascii.eqb_refl in *; congruence).
  apply Ascii.eqb_eq in Hb1, Hm, He; subst.
  left; eexists; eexists; apply Rec_range; assumption.
Qed.

Lemma match_here_none (s : list ascii) :
  (forall t r, ~ Recognizes s t r) ->
  Re.match_here FULL_NUMBER_RE s = None.
Proof.
  intros H.
  destruct (Re.match_here FULL_NUMBER_RE s) as [[g k] |] eqn:E; [| reflexivity].
  exfalso. revert E.
  unfold Re.match_here, FULL_NUMBER_RE; cbn [Re.alternatives Re.match_alts].
  destruct s as [| c s]; [discriminate |].
  cbn [Re.match_seq].
  change (Re.item_matches (Re.Cls "0" "9") c) with (is_digit c).
  destruct (is_digit c) eqn:Hd.
  { exfalso; eapply H; apply Rec_lit; exact Hd. }
  cbn [Re.item_matches].
  destruct (Ascii.eqb "X" c) eqn:Hx.
  { apply Ascii.eqb_eq in Hx; subst c. exfalso; eapply H; apply Rec_wild. }
  destruct (Ascii.eqb "[" c) eqn:Hb1; [| discriminate].
  apply Ascii.eqb_eq in Hb1; subst c.
  destruct s as [| a s]; [discriminate |].
  change ((N_of_ascii "0" <=? N_of_ascii a)%N && (N_of_ascii a <=? N_of_ascii "9")%N)
    with (is_digit a).
  destruct (is_digit a) eqn:Ha; [| discriminate].
  destruct s as [| m s]; [discriminate |].
  cbn [Re.match_seq Re.item_matches].
  destruct (Ascii.eqb "-" m) eqn:Hm; [| discriminate].
  apply Ascii.eqb_eq in Hm; subst m.
  destruct s as [| b s]; [discriminate |].
  change ((N_of_ascii "0" <=? N_of_ascii b)%N && (N_of_ascii b <=? N_of_ascii "9")%N)
    with (is_digit b).
  destruct (is_digit b) eqn:Hb; [| discriminate].
  destruct s as [| e s]; [discriminate |].
  destruct (Ascii.eqb "]" e) eqn:He; [| discriminate].
  apply Ascii.eqb_eq in He; subst e.
  exfalso; eapply H; apply Rec_range; eassumption.
Qed.

(** ** [finditer] and the token grammar *)

Lemma finditer_from_skip (re : Re.regex) (k : nat) (s : list ascii) :
  Re.finditer_from re k s = Re.finditer_from re 0 (skipn k s).
Proof.
  revert s; induction k as [| k IH]; intros s; [reflexivity |].
  destruct s as [| c s]; [reflexivity |]. simpl. apply IH.
Qed.

Lemma finditer_from_cons (re : Re.regex) (c : ascii) (s : list ascii) :
  Re.finditer_from re 0 (c :: s) =
    match Re.match_here re (c :: s) with
    | Some (g, len) => g :: Re.finditer_from re 0 (skipn (pred len) s)
    | None => Re.finditer_from re 0 s
    end.
Proof.
  cbn [Re.finditer_from].
  destruct (Re.match_here re (c :: s)) as [[g len] |]; [| reflexivity].
  now rewrite finditer_from_skip.
Qed.

Lemma finditer_tokens (s : list ascii) (ts : list token) :
  Tokenizes s ts -> Re.finditer_from FULL_NUMBER_RE 0 s = map groups_of ts.
Proof.
  induction 1 as [| s t rest ts Hr Ht IH | c rest ts Hn Ht IH].
  - reflexivity.
  - pose proof (match_here_recognizes _ _ _ Hr) as Hm.
    pose proof (recognizes_skipn _ _ _ Hr) as Hs.
    destruct s as [| c s]; [inversion Hr |].
    rewrite finditer_from_cons, Hm. cbn [map]. f_equal.
    rewrite <- IH, <- Hs. destruct t; reflexivity.
  - rewrite finditer_from_cons, (match_here_none _ Hn). exact IH.
Qed.

Lemma tokenizes_total (s : list ascii) : exists ts, Tokenizes s ts.
Proof.
  remember (List.length s) as n eqn:Hn.
  revert s Hn; induction n as [n IH] using lt_wf_ind; intros s Hn.
  destruct s as [| c s].
  { exists []; constructor. }
  destruct (recognizes_dec (c :: s)) as [(t & r & Hr) | Hno].
  - destruct (IH (List.length r)) with (s := r) as [ts Hts]; [| reflexivity |].
    { subst n. eapply recognizes_shorter; eassumption. }
    exists (t :: ts). econstructor; eassumption.
  - destruct (IH (List.length s)) with (s := s) as [ts Hts]; [| reflexivity |].
    { subst n; simpl; lia. }
    exists ts. constructor; assumption.
Qed.

Lemma groups_of_inj (t t' : token) : groups_of t = groups_of t' -> t = t'.
Proof. destruct t, t'; simpl; intros H; inversion H; reflexivity. Qed.

Lemma map_groups_of_inj (ts ts' : list token) :
  map groups_of ts = map groups_of ts' -> ts = ts'.
Proof.
  revert ts'; induction ts as [| t ts IH]; intros [| t' ts'] H;
    try discriminate; [reflexivity |].
  simpl in H; inversion H as [[H1 H2]].
  f_equal; [apply groups_of_inj | apply IH]; assumption.
Qed.


Lemma tokenizes_ok (s : list ascii) (ts : list token) :
  Tokenizes s ts -> Forall token_ok ts.
Proof.
  induction 1 as [| s t rest ts Hr Ht IH | c rest ts Hn Ht IH]; auto.
  constructor; [| assumption].
  inversion Hr; subst; simpl; auto.
Qed.

(** ** The loop body and the first loop *)

Lemma position_range_token (t : token) :
  token_ok t -> position_range (groups_of t) = Ok (digit_set t).
Proof.
  destruct t as [a b | | d]; simpl; intros H.
  - destruct H as [Ha Hb].
    unfold position_range; cbn [groups_of Py.not_none List.length Nat.eqb
                                 Py.getitem nth_error bind].
    rewrite (int_digit a Ha); cbn [bind]. rewrite (int_digit b Hb); cbn [bind].
    f_equal. apply range_interval; apply digit_val_bounds; assumption.
  - reflexivity.
  - unfold position_range; cbn [groups_of Py.not_none List.length Nat.eqb
                                 Py.getitem nth_error bind].
    rewrite (digit_not_wild d H), (int_digit d H); cbn [bind].
    f_equal. apply range_single.
Qed.

Lemma collect_ranges_tokens (ts : list token) (ranges : list (list Z)) :
  Forall token_ok ts ->
  collect_ranges (map groups_of ts) ranges = Ok (ranges ++ map digit_set ts).
Proof.
  intros H; revert ranges; induction H as [| t ts Ht Hts IH]; intros ranges.
  - simpl. now rewrite app_nil_r.
  - cbn [map collect_ranges]. rewrite (position_range_token t Ht); cbn [bind].
    rewrite IH, <- app_assoc. reflexivity.
Qed.

Lemma parse_ranges_tokens (tn : string) (ts : list token) :
  Tokens tn ts -> parse_ranges tn = Ok (map digit_set ts).
Proof.
  intros H. unfold parse_ranges, Re.finditer.
  rewrite (finditer_tokens _ _ H).
  apply (collect_ranges_tokens ts []). eapply tokenizes_ok; exact H.
Qed.

(** ** [itertools.product] is the Cartesian product *)

Lemma flat_map_flat_map {A B C : Type} (f : B -> list C) (g : A -> list B)
      (l : list A) :
  flat_map f (flat_map g l) = flat_map (fun x => flat_map f (g x)) l.
Proof.
  induction l as [| x l IH]; [reflexivity |].
  simpl. now rewrite flat_map_app, IH.
Qed.

Lemma map_flat_map {A B C : Type} (f : B -> C) (g : A -> list B) (l : list A) :
  map f (flat_map g l) = flat_map (fun x => map f (g x)) l.
Proof.
  induction l as [| x l IH]; [reflexivity |].
  simpl. now rewrite map_app, IH.
Qed.

Lemma flat_map_map {A B C : Type} (f : B -> list C) (g : A -> B) (l : list A) :
  flat_map f (map g l) = flat_map (fun x => f (g x)) l.
Proof.
  induction l as [| x l IH]; [reflexivity |].
  simpl. now rewrite IH.
Qed.

Section Product.

Context {A : Type}.

Lemma product_fold (pools : list (list A)) (acc : list (list A)) :
  fold_left Py.product_step pools acc =
    flat_map (fun x => map (app x) (cartesian pools)) acc.
Proof.
  revert acc; induction pools as [| pool pools IH]; intros acc.
  - simpl. induction acc as [| x acc IHacc]; [reflexivity |].
    simpl. now rewrite app_nil_r, <- IHacc.
  - cbn [fold_left cartesian]. rewrite IH. unfold Py.product_step.
    rewrite flat_map_flat_map. apply flat_map_ext; intros x.
    rewrite flat_map_map, map_flat_map. apply flat_map_ext; intros y.
    rewrite map_map. apply map_ext; intros z.
    now rewrite <- app_assoc.
Qed.

Lemma product_cartesian (pools : list (list A)) :
  Py.product pools = cartesian pools.
Proof.
  unfold Py.product. rewrite product_fold. simpl.
  rewrite app_nil_r. apply map_id.
Qed.

Lemma length_block (pool : list A) (c : list (list A)) :
  List.length (flat_map (fun y => map (cons y) c) pool) =
    List.length pool * List.length c.
Proof.
  induction pool as [| y pool IH]; [reflexivity |].
  simpl. now rewrite length_app, length_map, IH.
Qed.

Lemma length_cartesian (pools : list (list A)) :
  List.length (cartesian pools) =
    fold_right Nat.mul 1 (map (@List.length A) pools).
Proof.
  induction pools as [| pool pools IH]; [reflexivity |].
  cbn [cartesian map fold_right]. now rewrite length_block, IH.
Qed.

Lemma in_cartesian (pools : list (list A)) (x : list A) :
  In x (cartesian pools) <-> Forall2 (@In A) x pools.
Proof.
  revert x; induction pools as [| pool pools IH]; intros x.
  - simpl. split.
    + intros [<- | []]. constructor.
    + intros H; inversion H; auto.
  - cbn [cartesian]. rewrite in_flat_map. split.
    + intros (y & Hy & Hx). apply in_map_iff in Hx.
      destruct Hx as (z & <- & Hz). constructor; [assumption |].
      now apply IH.
    + intros H; inversion H as [| y pl z pls Hy Hz]; subst.
      exists y; split; [assumption |]. apply in_map. now apply IH.
Qed.

End Product.

(** ** The product order is the lexicographic order *)

Lemma sorted_app {B : Type} (R : B -> B -> Prop) (l1 l2 : list B) :
  StronglySorted R l1 -> StronglySorted R l2 ->
  (forall x y, In x l1 -> In y l2 -> R x y) ->
  StronglySorted R (l1 ++ l2).
Proof.
  intros H1 H2 H; induction H1 as [| a l1 Hs IH Ha]; [assumption |].
  simpl. constructor.
  - apply IH. intros x y Hx Hy; apply H; [right |]; assumption.
  - apply Forall_app; split; [assumption |].
    apply Forall_forall; intros y Hy. apply H; [left; reflexivity | assumption].
Qed.

Lemma sorted_map_cons (y : Z) (c : list (list Z)) :
  StronglySorted lex_lt c -> StronglySorted lex_lt (map (cons y) c).
Proof.
  induction 1 as [| x c Hs IH Hx]; simpl; constructor; [assumption |].
  apply Forall_map. eapply Forall_impl; [| exact Hx].
  intros z Hz. now apply lex_tail.
Qed.

Lemma sorted_block (pool : list Z) (c : list (list Z)) :
  StronglySorted Z.lt pool -> StronglySorted lex_lt c ->
  StronglySorted lex_lt (flat_map (fun y => map (cons y) c) pool).
Proof.
  intros Hp Hc; induction Hp as [| y pool Hs IH Hy]; [constructor |].
  simpl. apply sorted_app; [now apply sorted_map_cons | assumption |].
  intros u v Hu Hv.
  apply in_map_iff in Hu; destruct Hu as (u' & <- & _).
  apply in_flat_map in Hv; destruct Hv as (y' & Hy' & Hv).
  apply in_map_iff in Hv; destruct Hv as (v' & <- & _).
  apply lex_head. rewrite Forall_forall in Hy. now apply Hy.
Qed.

Lemma sorted_cartesian (pools : list (list Z)) :
  Forall (StronglySorted Z.lt) pools ->
  StronglySorted lex_lt (cartesian pools).
Proof.
  induction 1 as [| pool pools Hp Hps IH].
  - simpl. repeat constructor.
  - cbn [cartesian]. now apply sorted_block.
Qed.

Lemma sorted_all_digits : StronglySorted Z.lt all_digits.
Proof. unfold all_digits. repeat constructor. Qed.

Lemma sorted_filter {B : Type} (R : B -> B -> Prop) (f : B -> bool)
      (l : list B) :
  StronglySorted R l -> StronglySorted R (filter f l).
Proof.
  induction 1 as [| a l Hs IH Ha]; simpl; [constructor |].
  destruct (f a); [| assumption]. constructor; [assumption |].
  apply Forall_forall; intros x Hx. apply filter_In in Hx.
  rewrite Forall_forall in Ha. apply Ha, Hx.
Qed.

Lemma sorted_digit_set (t : token) : StronglySorted Z.lt (digit_set t).
Proof.
  destruct t; simpl.
  - apply sorted_filter, sorted_all_digits.
  - apply sorted_all_digits.
  - repeat constructor.
Qed.


Lemma digit_set_small (t : token) (d : Z) :
  token_ok t -> In d (digit_set t) -> (0 <= d <= 9)%Z.
Proof.
  destruct t as [a b | | c]; simpl; intros H Hin.
  - unfold interval in Hin. apply filter_In in Hin. destruct Hin as [Hin _].
    simpl in Hin; lia.
  - lia.
  - destruct Hin as [<- | []]. now apply digit_val_bounds.
Qed.

(** ** Rendering a tuple of digits *)

Lemma append_snoc (s : string) (c : ascii) (s' : string) :
  ((s ++ String c EmptyString) ++ s')%string = (s ++ String c s')%string.
Proof. induction s as [| a s IH]; simpl; [reflexivity | now rewrite IH]. Qed.

Lemma render_from (x : list Z) (acc : string) :
  Forall (fun d => 0 <= d <= 9)%Z x ->
  fold_left (fun s xx => (s ++ Py.format xx)%string) x acc =
    (acc ++ digits_string x)%string.
Proof.
  intros H; revert acc; induction H as [| d x Hd Hx IH]; intros acc.
  - simpl. induction acc as [| a acc IHacc]; simpl; [reflexivity |].
    now rewrite <- IHacc.
  - cbn [fold_left]. rewrite IH, (format_digit d Hd).
    apply append_snoc.
Qed.

Lemma render_digits (x : list Z) :
  Forall (fun d => 0 <= d <= 9)%Z x -> render x = digits_string x.
Proof. intros H. unfold render. now rewrite render_from. Qed.

Lemma length_digits_string (x : list Z) :
  String.length (digits_string x) = List.length x.
Proof.
  unfold digits_string. induction x as [| d x IH]; simpl; [reflexivity |].
  now rewrite IH.
Qed.

Lemma get_digits_string (x : list Z) (i : nat) :
  String.get i (digits_string x) = option_map digit_chr (nth_error x i).
Proof.
  unfold digits_string. revert i; induction x as [| d x IH]; intros [| i];
    simpl; auto.
Qed.

(** ** From the tokens of a pattern to the yielded strings *)

Lemma tokens_total (tn : string) : exists ts, Tokens tn ts.
Proof. apply tokenizes_total. Qed.

Lemma tokens_of_finditer (tn : string) (ts : list token) :
  Re.finditer FULL_NUMBER_RE tn = map groups_of ts -> Tokens tn ts.
Proof.
  intros H. destruct (tokens_total tn) as [ts' H'].
  unfold Re.finditer in H. rewrite (finditer_tokens _ _ H') in H.
  apply map_groups_of_inj in H. now subst ts'.
Qed.

Lemma tuple_small (ts : list token) (x : list Z) :
  Forall token_ok ts -> In x (cartesian (map digit_set ts)) ->
  Forall (fun d => 0 <= d <= 9)%Z x.
Proof.
  intros Hok Hx. apply in_cartesian in Hx.
  revert x Hx; induction Hok as [| t ts Ht Hts IH]; intros x Hx;
    inversion Hx; subst; constructor.
  - eapply digit_set_small; eassumption.
  - now apply IH.
Qed.

Lemma expand_tn_tokens (tn : string) (ts : list token) :
  Tokens tn ts ->
  expand_tn tn = Ok (map digits_string (cartesian (map digit_set ts))).
Proof.
  intros H. unfold expand_tn. rewrite (parse_ranges_tokens _ _ H); cbn [bind].
  rewrite product_cartesian. f_equal.
  apply map_ext_in; intros x Hx. apply render_digits.
  eapply tuple_small; [eapply tokenizes_ok; exact H | exact Hx].
Qed.

(** ** Sizes of the digit sets *)

Lemma length_interval (a b : Z) :
  (0 <= a <= 9)%Z -> (0 <= b <= 9)%Z ->
  Z.of_nat (List.length (interval a b)) = Z.max 0 (b - a + 1).
Proof. intros Ha Hb. small_cases Ha; small_cases Hb; reflexivity. Qed.

Lemma length_digit_set (t : token) :
  token_ok t -> Z.of_nat (List.length (digit_set t)) = cardinality t.
Proof.
  destruct t as [a b | | d]; simpl; intros H; try reflexivity.
  destruct H as [Ha Hb].
  apply length_interval; apply digit_val_bounds; assumption.
Qed.

Lemma product_of_lengths (ts : list token) :
  Forall token_ok ts ->
  Z.of_nat (fold_right Nat.mul 1
              (map (@List.length Z) (map digit_set ts))) =
    fold_right Z.mul 1%Z (map cardinality ts).
Proof.
  induction 1 as [| t ts Ht Hts IH]; [reflexivity |].
  cbn [map fold_right]. now rewrite Nat2Z.inj_mul, IH, length_digit_set.
Qed.

Lemma cartesian_empty_pool {A : Type} (pools : list (list A)) :
  In [] pools -> cartesian pools = [].
Proof.
  induction pools as [| pool pools IH]; intros H; [destruct H |].
  cbn [cartesian]. destruct H as [-> | H]; [reflexivity |].
  rewrite (IH H). induction pool as [| y pool IHp]; [reflexivity | exact IHp].
Qed.

(** ** Draining the generator *)

Lemma drain_suspended (pending : list (list Z)) (fuel : nat) :
  List.length pending < fuel ->
  Generator.drain fuel (Generator.Suspended pending) =
    Some (Ok (map render pending)).
Proof.
  revert fuel; induction pending as [| x pending IH]; intros fuel Hf;
    (destruct fuel as [| fuel]; [inversion Hf |]).
  - reflexivity.
  - cbn [Generator.drain Generator.next Generator.resume].
    rewrite IH by (simpl in Hf; lia). reflexivity.
Qed.

Lemma drain_created_ok (tn : string) (ranges : list (list Z)) (fuel : nat) :
  parse_ranges tn = Ok ranges ->
  List.length (Py.product ranges) < fuel ->
  Generator.drain fuel (Generator.Created tn) =
    Some (Ok (map render (Py.product ranges))).
Proof.
  intros Hp Hf. destruct fuel as [| fuel]; [inversion Hf |].
  cbn [Generator.drain Generator.next]. rewrite Hp.
  destruct (Py.product ranges) as [| x pending]; [reflexivity |].
  cbn [Generator.resume].
  rewrite drain_suspended by (simpl in Hf; lia). reflexivity.
Qed.

Lemma drain_suspended_sound (pending : list (list Z)) (fuel : nat)
      (r : result (list string)) :
  Generator.drain fuel (Generator.Suspended pending) = Some r ->
  r = Ok (map render pending).
Proof.
  revert pending r; induction fuel as [| fuel IH]; intros pending r H;
    [discriminate |].
  destruct pending as [| x pending].
  - simpl in H. now inversion H.
  - cbn [Generator.drain Generator.next Generator.resume] in H.
    destruct (Generator.drain fuel (Generator.Suspended pending))
      as [r' |] eqn:E; [| discriminate].
    apply IH in E; subst r'. now inversion H.
Qed.

Lemma drain_created_sound (tn : string) (fuel : nat)
      (r : result (list string)) :
  Generator.drain fuel (Generator.Created tn) = Some r -> r = expand_tn tn.
Proof.
  destruct fuel as [| fuel]; [discriminate |].
  cbn [Generator.drain Generator.next]. unfold expand_tn.
  destruct (parse_ranges tn) as [ranges | e]; cbn [bind].
  - destruct (Py.product ranges) as [| x pending]; cbn [Generator.resume].
    + intros H; now inversion H.
    + destruct (Generator.drain fuel (Generator.Suspended pending))
        as [r' |] eqn:E; [| discriminate].
      apply drain_suspended_sound in E; subst r'.
      intros H; now inversion H.
  - intros H; now inversion H.
Qed.

(** ** A bracketed range inside a pattern is always a token *)

Lemma list_ascii_of_string_app (s1 s2 : string) :
  list_ascii_of_string (s1 ++ s2)%string =
    list_ascii_of_string s1 ++ list_ascii_of_string s2.
Proof. induction s1 as [| c s1 IH]; simpl; [reflexivity | now rewrite IH]. Qed.

Lemma bracket_not_digit : is_digit "[" = false.
Proof. reflexivity. Qed.

Lemma range_is_token (a b : ascii) (s : list ascii) (ts : list token) :
  is_digit a = true -> is_digit b = true ->
  Tokenizes s ts ->
  forall pre post, s = pre ++ range_text a b ++ post -> In (TRange a b) ts.
Proof.
  intros Ha Hb.
  induction 1 as [| s t rest ts Hr Ht IH | c rest ts Hn Ht IH];
    intros pre post E.
  - destruct pre; discriminate E.
  - destruct pre as [| c pre].
    + simpl in E. subst s.
      destruct (recognizes_functional _ _ _ _ _ Hr
                  (Rec_range a b post Ha Hb)) as [-> _].
      left; reflexivity.
    + right. simpl in E. subst s.
      inversion Hr as [a' b' r Ha' Hb' E1 | r | d r Hd]; subst.
      * destruct pre as [| p1 [| p2 [| p3 [| p4 pre]]]];
          simpl in *;
          match goal with
          | H : _ :: _ = _ :: _ |- _ => inversion H; subst
          end;
          try (rewrite bracket_not_digit in *; discriminate).
        eapply IH; reflexivity.
      * eapply IH; reflexivity.
      * eapply IH; reflexivity.
  - destruct pre as [| c' pre].
    + exfalso. simpl in E. inversion E; subst.
      eapply Hn. apply Rec_range; eassumption.
    + simpl in E. inversion E; subst. eapply IH; reflexivity.
Qed.

Lemma interval_inverted (a b : Z) : (b < a)%Z -> interval a b = [].
Proof.
  intros H. unfold interval, all_digits. simpl.
  repeat match goal with
         | |- context [((a <=? ?n)%Z && (?n <=? b)%Z)] =>
             replace ((a <=? n)%Z && (n <=? b)%Z) with false
               by (symmetry; apply andb_false_iff;
                   rewrite !Z.leb_gt; lia)
         end.
  reflexivity.
Qed.

Lemma no_tokens_chars (s : list ascii) :
  Tokenizes s [] <->
  Forall (fun c => is_digit c = false /\ c <> "X"%char) s.
Proof.
  split.
  - intros H. remember (@nil token) as ts eqn:E.
    induction H as [| s t rest ts Hr Ht IH | c rest ts Hn Ht IH];
      [constructor | discriminate |].
    constructor; [| now apply IH]. split.
    + destruct (is_digit c) eqn:Hd; [| reflexivity].
      exfalso; eapply Hn; apply Rec_lit; exact Hd.
    + intros ->. eapply Hn; apply Rec_wild.
  - induction 1 as [| c s [Hd Hx] Hs IH]; [constructor |].
    apply Tok_skip; [| exact IH].
    intros t r Hr; inversion Hr; subst; try congruence.
    inversion Hs as [| a' s' [Ha' _] _]; subst. congruence.
Qed.

(** ** The order of the rendered tuples *)

Lemma digit_chr_lt (a b : Z) :
  (0 <= a <= 9)%Z -> (0 <= b <= 9)%Z -> (a < b)%Z ->
  Ascii.compare (digit_chr a) (digit_chr b) = Lt.
Proof.
  intros Ha Hb Hab. small_cases Ha; small_cases Hb;
    try reflexivity; exfalso; lia.
Qed.

Lemma ascii_compare_refl (c : ascii) : Ascii.compare c c = Eq.
Proof. apply N.compare_refl. Qed.

Lemma string_compare_refl (s : string) : String.compare s s = Eq.
Proof.
  induction s as [| c s IH]; [reflexivity |].
  simpl. now rewrite ascii_compare_refl.
Qed.

Lemma lex_lt_compare (x y : list Z) :
  lex_lt x y ->
  Forall (fun d => 0 <= d <= 9)%Z x -> Forall (fun d => 0 <= d <= 9)%Z y ->
  string_lt (digits_string x) (digits_string y).
Proof.
  unfold string_lt, digits_string.
  induction 1 as [a b xs ys Hab | a xs ys Hlt IH]; intros Hx Hy;
    inversion Hx; inversion Hy; subst; simpl.
  - now rewrite digit_chr_lt.
  - rewrite ascii_compare_refl. now apply IH.
Qed.

Lemma sorted_map_in {A B : Type} (R : A -> A -> Prop) (R' : B -> B -> Prop)
      (f : A -> B) (l : list A) :
  (forall a b, In a l -> In b l -> R a b -> R' (f a) (f b)) ->
  StronglySorted R l -> StronglySorted R' (map f l).
Proof.
  intros Hf H; induction H as [| a l Hs IH Ha]; [constructor |].
  simpl. constructor.
  - apply IH. intros x y Hx Hy. apply Hf; now right.
  - apply Forall_map, Forall_forall. intros y Hy.
    rewrite Forall_forall in Ha. apply Hf; [now left | now right | auto].
Qed.

Lemma sorted_nodup {A : Type} (R : A -> A -> Prop) (l : list A) :
  (forall a, ~ R a a) -> StronglySorted R l -> NoDup l.
Proof.
  intros Hirr H; induction H as [| a l Hs IH Ha]; constructor; [| exact IH].
  intros Hin. rewrite Forall_forall in Ha. exact (Hirr a (Ha a Hin)).
Qed.

(** * The claims *)

(** C1 (confirmed).  The two documented patterns: ["1316555101[0-9]"] yields
    exactly the ten strings ["13165551010"] to ["13165551019"], and
    ["131655510XX"] yields exactly the hundred strings ["13165551000"] to
    ["13165551099"]; both sequences are the decimal spellings of consecutive
    numbers in ascending order. *)
Theorem expand_tn_documented_patterns :
  expand_tn "1316555101[0-9]" =
    Ok ["13165551010"; "13165551011"; "13165551012"; "13165551013";
        "13165551014"; "13165551015"; "13165551016"; "13165551017";
        "13165551018"; "13165551019"]
  /\ expand_tn "1316555101[0-9]" =
       Ok (map Py.format (Py.range 13165551010 13165551020))
  /\ exists out,
       expand_tn "131655510XX" = Ok out
       /\ List.length out = 100
       /\ out = map Py.format (Py.range 13165551000 13165551100)
       /\ hd_error out = Some "13165551000"
       /\ last out "" = "13165551099".
Proof.
  split; [vm_compute; reflexivity |].
  split; [vm_compute; reflexivity |].
  eexists; split; [vm_compute; reflexivity |].
  repeat split; vm_compute; reflexivity.
Qed.

(** C2 (counterexample).  On ["[5-2]"] the pattern has one token, the
    inverted range, and nothing is yielded, while the product of the sizes
    the sentence gives ([b - a + 1 = -2]) is not zero. *)
Lemma expand_tn_count_inverted :
  Tokens "[5-2]" [TRange "5" "2"]
  /\ expand_tn "[5-2]" = Ok []
  /\ fold_right Z.mul 1%Z (map claimed_cardinality [TRange "5" "2"]) = (-2)%Z
  /\ ~ (forall tn ts out,
          Tokens tn ts -> expand_tn tn = Ok out ->
          Z.of_nat (List.length out) =
            fold_right Z.mul 1%Z (map claimed_cardinality ts)).
Proof.
  assert (Ht : Tokens "[5-2]" [TRange "5" "2"])
    by (apply tokens_of_finditer; reflexivity).
  assert (He : expand_tn "[5-2]" = Ok []) by (vm_compute; reflexivity).
  split; [exact Ht |]. split; [exact He |]. split; [reflexivity |].
  intros H. specialize (H _ _ _ Ht He). vm_compute in H. discriminate H.
Qed.

(** C2 (amended).  For every pattern the number of yielded strings is the
    product, over the recognized tokens, of the size of the token's digit
    set: 1 for a literal digit, 10 for [X] (and for the full range), and for
    a range [[a-b]] the number [b - a + 1] when [a <= b] and 0 when the range
    is inverted.  The sequence is a finite list. *)
Theorem expand_tn_count (tn : string) :
  exists ts out,
    Tokens tn ts
    /\ expand_tn tn = Ok out
    /\ List.length out =
         fold_right Nat.mul 1 (map (fun t => List.length (digit_set t)) ts)
    /\ Z.of_nat (List.length out) = fold_right Z.mul 1%Z (map cardinality ts)
    /\ Forall (fun t => Z.of_nat (List.length (digit_set t)) = cardinality t
                        /\ (forall a b, t = TRange a b ->
                              (digit_val a <= digit_val b)%Z ->
                              cardinality t = claimed_cardinality t)) ts.
Proof.
  destruct (tokens_total tn) as [ts H].
  pose proof (tokenizes_ok _ _ H) as Hok.
  exists ts. eexists. split; [exact H |].
  split; [apply expand_tn_tokens; exact H |].
  rewrite length_map, length_cartesian.
  split; [now rewrite map_map |].
  split; [now apply product_of_lengths |].
  eapply Forall_impl; [| exact Hok].
  intros t Ht; split; [now apply length_digit_set |].
  intros a b -> Hab. simpl. lia.
Qed.

(** C3 (confirmed).  For every pattern, [itertools.product] over the digit
    sets of the tokens, taken in the order the tokens were recognized, is the
    Cartesian product with the leftmost position slowest: it holds exactly
    the tuples that pick one digit from each set, and it lists them in
    strictly ascending lexicographic order, the first position the most
    significant.  The yielded strings are, one for one and in that order,
    these tuples written in decimal digits; so a string is yielded exactly
    when it spells a choice of one digit per token, and the strings come in
    strictly ascending order. *)
Theorem expand_tn_product_order (tn : string) :
  exists ts out,
    Tokens tn ts
    /\ parse_ranges tn = Ok (map digit_set ts)
    /\ Py.product (map digit_set ts) = cartesian (map digit_set ts)
    /\ expand_tn tn = Ok out
    /\ out = map digits_string (Py.product (map digit_set ts))
    /\ (forall x, In x (Py.product (map digit_set ts)) <->
                  Forall2 (@In Z) x (map digit_set ts))
    /\ StronglySorted lex_lt (Py.product (map digit_set ts))
    /\ (forall s, In s out <->
                  exists x, Forall2 (@In Z) x (map digit_set ts)
                            /\ s = digits_string x)
    /\ StronglySorted string_lt out.
Proof.
  destruct (tokens_total tn) as [ts H].
  pose proof (tokenizes_ok _ _ H) as Hok.
  assert (Hsorted : StronglySorted lex_lt (cartesian (map digit_set ts))).
  { apply sorted_cartesian. apply Forall_map, Forall_forall.
    intros t _. apply sorted_digit_set. }
  exists ts. eexists. split; [exact H |].
  split; [now apply parse_ranges_tokens |].
  split; [apply product_cartesian |].
  split; [apply expand_tn_tokens; exact H |].
  rewrite product_cartesian.
  split; [reflexivity |].
  split; [intros x; apply in_cartesian |].
  split; [exact Hsorted |].
  split.
  - intros s. rewrite in_map_iff. split.
    + intros (x & <- & Hx). exists x. split; [| reflexivity].
      now apply in_cartesian.
    + intros (x & Hx & ->). exists x. split; [reflexivity |].
      now apply in_cartesian.
  - apply sorted_map_in with (R := lex_lt); [| exact Hsorted].
    intros x y Hx Hy Hxy. apply lex_lt_compare; [exact Hxy | |];
      eapply tuple_small; eassumption.
Qed.


(** C5 (confirmed).  For every pattern, every yielded string has as many
    characters as the pattern has recognized tokens (matches of
    [re.finditer]), and its [i]-th character is the decimal digit picked
    from the digit set of the [i]-th token. *)
Theorem expand_tn_length_and_digits (tn : string) :
  exists ts out,
    Tokens tn ts
    /\ List.length ts = List.length (Re.finditer FULL_NUMBER_RE tn)
    /\ expand_tn tn = Ok out
    /\ forall s, In s out ->
         String.length s = List.length ts
         /\ exists x,
              Forall2 (@In Z) x (map digit_set ts)
              /\ s = render x
              /\ forall i d, nth_error x i = Some d ->
                   String.get i s = Some (digit_chr d)
                   /\ Py.format d = String (digit_chr d) EmptyString
                   /\ is_digit (digit_chr d) = true
                   /\ digit_val (digit_chr d) = d.
Proof.
  destruct (tokens_total tn) as [ts H].
  pose proof (tokenizes_ok _ _ H) as Hok.
  exists ts. eexists. split; [exact H |].
  split.
  { unfold Re.finditer. now rewrite (finditer_tokens _ _ H), length_map. }
  split; [apply expand_tn_tokens; exact H |].
  intros s Hs. apply in_map_iff in Hs. destruct Hs as (x & <- & Hx).
  pose proof (tuple_small ts x Hok Hx) as Hsmall.
  apply in_cartesian in Hx.
  split.
  { rewrite length_digits_string, (Forall2_length Hx). apply length_map. }
  exists x. split; [exact Hx |].
  split; [symmetry; now apply render_digits |].
  intros i d Hd.
  assert (Hsd : (0 <= d <= 9)%Z).
  { rewrite Forall_forall in Hsmall.
    apply Hsmall. eapply nth_error_In; exact Hd. }
  split; [now rewrite get_digits_string, Hd |].
  split; [now apply format_digit |].
  split; [now apply is_digit_chr | now apply digit_val_chr].
Qed.

(** C6 (confirmed).  A pattern with no recognizable token, the empty string
    among them, yields exactly one string, the empty one, and raises
    nothing. *)
Theorem expand_tn_no_tokens (tn : string) :
  Tokens tn [] ->
  expand_tn tn = Ok [""] /\ expand_tn "" = Ok [""].
Proof.
  intros H. split; [| reflexivity].
  now rewrite (expand_tn_tokens _ _ H).
Qed.

Lemma expand_tn_no_tokens_witness :
  Tokens "(+) a-b#" []
  /\ expand_tn "(+) a-b#" = Ok [""] /\ expand_tn "" = Ok [""].
Proof.
  split; [apply tokens_of_finditer; reflexivity |].
  apply (expand_tn_no_tokens "(+) a-b#").
  apply tokens_of_finditer; reflexivity.
Defined.

(** C8 (code defect).  An IPv6 address given as a string is parsed into a
    /128 network; the test [prefixlen == 32] leaves it a network, so
    [ip_in_range] returns [None] whatever the range.  The same address given
    as an object is compared with the range (and found in it when the masked
    address is the network address and the network has no scope id). *)
Theorem ip_in_range_ipv6_string
        (IPv4Network : string -> option (Z * Z))
        (IPv6Network : string -> option (Z * Z * option string))
        (s : string) (a : Z) (sc : option string) (n : Ip.network) :
  IPv4Network s = None ->
  IPv6Network s = Some (a, 128%Z, sc) ->
  Ip.net_version n = Ip.V6 ->
  Ip.ip_in_range IPv4Network IPv6Network (Ip.Str s) (Ip.Net n) = Ok None
  /\ Ip.ip_in_range IPv4Network IPv6Network
       (Ip.Addr (Ip.MkAddress Ip.V6 a)) (Ip.Net n) =
     Ok (Some ((Z.land a (Ip.netmask n) =? Ip.network_address n)%Z
               && match Ip.scope_id n with
                  | None => true
                  | Some _ => false
                  end)).
Proof.
  intros H4 H6 Hn. split.
  - unfold Ip.ip_in_range, Ip.ip_version. rewrite H4, H6. reflexivity.
  - unfold Ip.ip_in_range;
      cbn [bind Ip.both_of Ip.addr_version Ip.addr_int Ip.same_scope].
    rewrite Hn. cbn [Ip.version_eqb andb]. unfold Ip.same_scope.
    destruct (Z.land a (Ip.netmask n) =? Ip.network_address n)%Z;
      destruct (Ip.scope_id n); reflexivity.
Qed.

Lemma ip_in_range_ipv6_string_witness :
  (fun _ : string => @None (Z * Z)) "2001:db8::1" = None
  /\ example_IPv6Network "2001:db8::1" =
       Some (42540766411282592856903984951653826561, 128, None)%Z
  /\ Ip.net_version
       (Ip.MkNetwork Ip.V6 42540766411282592856903984951653826560 32 None)
     = Ip.V6
  /\ Ip.ip_in_range (fun _ => None) example_IPv6Network
       (Ip.Str "2001:db8::1")
       (Ip.Net (Ip.MkNetwork Ip.V6
                  42540766411282592856903984951653826560 32 None))
     = Ok None
  /\ Ip.ip_in_range (fun _ => None) example_IPv6Network
       (Ip.Addr (Ip.MkAddress Ip.V6 42540766411282592856903984951653826561))
       (Ip.Net (Ip.MkNetwork Ip.V6
                  42540766411282592856903984951653826560 32 None))
     = Ok (Some true).
Proof.
  split; [reflexivity |]. split; [reflexivity |]. split; [reflexivity |].
  apply (ip_in_range_ipv6_string (fun _ => None) example_IPv6Network
           "2001:db8::1" 42540766411282592856903984951653826561 None
           (Ip.MkNetwork Ip.V6
              42540766411282592856903984951653826560 32 None));
    reflexivity.
Defined.

(** The sibling path: an IPv4 address given as a string is turned back into
    an address and compared. *)
Lemma ip_in_range_ipv4_string
      (IPv4Network : string -> option (Z * Z))
      (IPv6Network : string -> option (Z * Z * option string))
      (s : string) (a : Z) (n : Ip.network) :
  IPv4Network s = Some (a, 32%Z) ->
  Ip.net_version n = Ip.V4 ->
  Ip.ip_in_range IPv4Network IPv6Network (Ip.Str s) (Ip.Net n) =
    Ok (Some (Z.land a (Ip.netmask n) =? Ip.network_address n)%Z).
Proof.
  intros H4 Hn. unfold Ip.ip_in_range, Ip.ip_version. rewrite H4.
  cbn [Ip.prefixlen Z.eqb Pos.eqb bind Ip.both_of Ip.addr_version
       Ip.addr_int Ip.net_version Ip.network_address Ip.same_scope].
  rewrite Hn. cbn [Ip.version_eqb andb]. rewrite andb_true_r.
  destruct (Z.land a (Ip.netmask n) =? Ip.network_address n)%Z; reflexivity.
Qed.

(** C9 (confirmed).  For every input string nothing is raised: each group a
    match captures is the letter [X] (group 3) or a single decimal digit on
    which [int] succeeds, the loop body returns a range for every match, and
    the generator stops after finitely many yields. *)
Theorem expand_tn_never_raises (tn : string) :
  (forall g, In g (Re.finditer FULL_NUMBER_RE tn) ->
     (forall i s, nth_error g i = Some (Some s) ->
        (i = 2 /\ s = "X")
        \/ (i <> 2 /\ exists c, s = String c EmptyString
                                /\ is_digit c = true
                                /\ Py.int s = Ok (digit_val c)))
     /\ exists r, position_range g = Ok r)
  /\ exists out,
       expand_tn tn = Ok out
       /\ forall fuel, List.length out < fuel ->
            Generator.drain fuel (Generator.Created tn) = Some (Ok out).
Proof.
  destruct (tokens_total tn) as [ts H].
  pose proof (tokenizes_ok _ _ H) as Hok.
  split.
  - intros g Hg. unfold Re.finditer in Hg.
    rewrite (finditer_tokens _ _ H) in Hg.
    apply in_map_iff in Hg. destruct Hg as (t & <- & Ht).
    rewrite Forall_forall in Hok. specialize (Hok t Ht).
    split; [| eexists; now apply position_range_token].
    intros i s Hi.
    destruct t as [a b | | d]; simpl in Hok;
      destruct i as [| [| [| [| i]]]]; simpl in Hi;
      try discriminate; try (destruct i; discriminate);
      inversion Hi; subst.
    + destruct Hok as [Ha Hb]. right; split; [discriminate |].
      exists a. auto using int_digit.
    + destruct Hok as [Ha Hb]. right; split; [discriminate |].
      exists b. auto using int_digit.
    + left; split; reflexivity.
    + right; split; [discriminate |].
      exists d. auto using int_digit.
  - pose proof (parse_ranges_tokens _ _ H) as Hp.
    eexists. split.
    + unfold expand_tn. rewrite Hp. reflexivity.
    + intros fuel Hf. rewrite length_map in Hf.
      now apply (drain_created_ok tn (map digit_set ts)).
Qed.

(** C10 (confirmed).  For every pattern that contains a bracketed range
    [[a-b]] of two digits with [a > b], the list built for that position is
    empty, nothing is yielded, and nothing is raised. *)
Theorem expand_tn_inverted_range (pre post : string) (a b : ascii) :
  is_digit a = true -> is_digit b = true ->
  (digit_val b < digit_val a)%Z ->
  exists ranges,
    parse_ranges (pre ++ bracketed a b ++ post) = Ok ranges
    /\ In [] ranges
    /\ expand_tn (pre ++ bracketed a b ++ post) = Ok [].
Proof.
  intros Ha Hb Hab.
  destruct (tokens_total (pre ++ bracketed a b ++ post)) as [ts H].
  assert (Hin : In (TRange a b) ts).
  { eapply (range_is_token a b _ ts Ha Hb H
              (list_ascii_of_string pre) (list_ascii_of_string post)).
    now rewrite !list_ascii_of_string_app. }
  assert (Hempty : In [] (map digit_set ts)).
  { apply in_map_iff. exists (TRange a b). split; [| exact Hin].
    simpl. now apply interval_inverted. }
  exists (map digit_set ts).
  split; [now apply parse_ranges_tokens |].
  split; [exact Hempty |].
  rewrite (expand_tn_tokens _ _ H), (cartesian_empty_pool _ Hempty).
  reflexivity.
Qed.

Lemma expand_tn_inverted_range_witness :
  is_digit "5" = true /\ is_digit "2" = true
  /\ (digit_val "2" < digit_val "5")%Z
  /\ exists ranges,
       parse_ranges ("1316555" ++ bracketed "5" "2" ++ "X") = Ok ranges
       /\ In [] ranges
       /\ expand_tn ("1316555" ++ bracketed "5" "2" ++ "X") = Ok [].
Proof.
  split; [reflexivity |]. split; [reflexivity |]. split; [reflexivity |].
  apply (expand_tn_inverted_range "1316555" "X" "5" "2"); reflexivity.
Defined.

(** * Further properties *)

(** ** [ip_in_range] on well-formed objects *)

Lemma testbit_above (w a i : Z) :
  (0 <= a < 2 ^ w)%Z -> (0 <= w <= i)%Z -> Z.testbit a i = false.
Proof.
  intros Ha Hi. apply Z.testbit_false; [lia |].
  rewrite Z.div_small; [reflexivity |].
  split; [lia |]. apply Z.lt_le_trans with (2 ^ w)%Z; [lia |].
  apply Z.pow_le_mono_r; lia.
Qed.

Lemma land_netmask (w k a : Z) :
  (0 <= k <= w)%Z -> (0 <= a < 2 ^ w)%Z ->
  Z.land a (Z.lxor (Z.ones w) (Z.ones k)) = (2 ^ k * (a / 2 ^ k))%Z.
Proof.
  intros Hk Ha.
  rewrite Z.mul_comm, <- Z.shiftr_div_pow2, <- Z.shiftl_mul_pow2 by lia.
  apply Z.bits_inj'; intros i Hi.
  rewrite Z.land_spec, Z.lxor_spec, Z.shiftl_spec by lia.
  destruct (Z.lt_ge_cases i k) as [Hlt | Hge].
  - rewrite !Z.ones_spec_low by lia.
    rewrite (Z.testbit_neg_r _ (i - k)) by lia. apply andb_false_r.
  - rewrite Z.shiftr_spec by lia.
    replace (i - k + k)%Z with i by lia.
    rewrite (Z.ones_spec_high k) by lia.
    destruct (Z.lt_ge_cases i w) as [Hiw | Hiw].
    + rewrite Z.ones_spec_low by lia. simpl. apply andb_true_r.
    + rewrite Z.ones_spec_high by lia. simpl.
      rewrite (testbit_above w a i) by lia. reflexivity.
Qed.

Lemma aligned_block (k a na : Z) :
  (0 <= k)%Z -> (na mod 2 ^ k = 0)%Z ->
  (2 ^ k * (a / 2 ^ k) = na <-> na <= a < na + 2 ^ k)%Z.
Proof.
  intros Hk Hna.
  assert (Hm : (0 < 2 ^ k)%Z) by (apply Z.pow_pos_nonneg; lia).
  pose proof (Z.div_mod a (2 ^ k)) as Hd.
  pose proof (Z.mod_pos_bound a (2 ^ k) Hm) as Hb.
  split.
  - intros <-. lia.
  - intros Hin.
    pose proof (Z.div_mod na (2 ^ k)) as Hq. rewrite Hna in Hq.
    assert (Hu : (na / 2 ^ k = a / 2 ^ k)%Z).
    { apply (Z.div_unique_pos a (2 ^ k) (na / 2 ^ k) (a - na)); lia. }
    rewrite <- Hu. lia.
Qed.

Lemma ip_in_range_objects
      (IPv4Network : string -> option (Z * Z))
      (IPv6Network : string -> option (Z * Z * option string))
      (a : Ip.address) (n : Ip.network) :
  Ip.addr_version a = Ip.net_version n ->
  Ip.ip_in_range IPv4Network IPv6Network (Ip.Addr a) (Ip.Net n) =
    Ok (Some ((Z.land (Ip.addr_int a) (Ip.netmask n) =? Ip.network_address n)%Z
              && Ip.same_scope (Ip.net_version n) n)).
Proof.
  intros Hv. unfold Ip.ip_in_range; cbn [bind Ip.both_of].
  rewrite Hv.
  destruct (Ip.net_version n) eqn:Hn;
    cbn [Ip.version_eqb andb Ip.addr_version Ip.addr_int];
    rewrite ?Hn; cbn [Ip.version_eqb andb]; unfold Ip.same_scope;
    destruct (Z.land (Ip.addr_int a) (Ip.netmask n) =? Ip.network_address n)%Z;
    cbn [andb]; try reflexivity;
    destruct (Ip.scope_id n); reflexivity.
Qed.

(** X1.  For an address and a network of the same IP version, both as the
    library builds them, [ip_in_range] answers [True] or [False], and [True]
    exactly when the address lies in the block of [2 ^ host_bits] addresses
    that starts at the network address and the network carries no scope id;
    for a scoped IPv6 network the answer is [False] for every address. *)
Theorem ip_in_range_membership
        (IPv4Network : string -> option (Z * Z))
        (IPv6Network : string -> option (Z * Z * option string))
        (a : Ip.address) (n : Ip.network) :
  Ip.addr_version a = Ip.net_version n ->
  wf_address a -> wf_network n ->
  exists b,
    Ip.ip_in_range IPv4Network IPv6Network (Ip.Addr a) (Ip.Net n) =
      Ok (Some b)
    /\ (b = true <->
        (Ip.network_address n <= Ip.addr_int a
         < Ip.network_address n + 2 ^ host_bits n)%Z
        /\ Ip.scope_id n = None).
Proof.
  intros Hv Ha (Hp & Hna & Hal & Hsc).
  eexists. split; [apply ip_in_range_objects; exact Hv |].
  unfold wf_address in Ha. rewrite Hv in Ha.
  unfold Ip.netmask. fold (host_bits n).
  unfold host_bits in *.
  rewrite land_netmask by lia.
  rewrite andb_true_iff, Z.eqb_eq.
  assert (Hk : (0 <= Ip.max_prefixlen (Ip.net_version n) - Ip.prefixlen n)%Z)
    by lia.
  rewrite (aligned_block _ (Ip.addr_int a) _ Hk Hal).
  assert (Hs : Ip.same_scope (Ip.net_version n) n = true
               <-> Ip.scope_id n = None).
  { unfold Ip.same_scope. destruct (Ip.net_version n) eqn:Hn.
    - split; [intros _; now apply Hsc | reflexivity].
    - destruct (Ip.scope_id n); split; intros H; try reflexivity;
        discriminate H. }
  rewrite Hs. reflexivity.
Qed.

Lemma ip_in_range_membership_witness :
  Ip.addr_version (Ip.MkAddress Ip.V4 167838211) =
    Ip.net_version (Ip.MkNetwork Ip.V4 167772160 8 None)
  /\ wf_address (Ip.MkAddress Ip.V4 167838211)
  /\ wf_network (Ip.MkNetwork Ip.V4 167772160 8 None)
  /\ exists b,
       Ip.ip_in_range (fun _ => None) (fun _ => None)
         (Ip.Addr (Ip.MkAddress Ip.V4 167838211))
         (Ip.Net (Ip.MkNetwork Ip.V4 167772160 8 None)) = Ok (Some b)
       /\ (b = true <->
           (167772160 <= 167838211 < 167772160 + 2 ^ 24)%Z
           /\ @None string = None).
Proof.
  assert (Ha : wf_address (Ip.MkAddress Ip.V4 167838211))
    by (unfold wf_address; simpl; lia).
  assert (Hn : wf_network (Ip.MkNetwork Ip.V4 167772160 8 None))
    by (unfold wf_network, host_bits; simpl; repeat split; try lia;
        reflexivity).
  split; [reflexivity |]. split; [exact Ha |]. split; [exact Hn |].
  apply (ip_in_range_membership (fun _ => None) (fun _ => None)
           (Ip.MkAddress Ip.V4 167838211)
           (Ip.MkNetwork Ip.V4 167772160 8 None) eq_refl Ha Hn).
Defined.

(** Against a scoped IPv6 network every IPv6 address is answered [False]:
    the address built from the masked integer has no scope id. *)
Lemma ip_in_range_scoped_network
      (IPv4Network : string -> option (Z * Z))
      (IPv6Network : string -> option (Z * Z * option string))
      (a : Ip.address) (n : Ip.network) (zone : string) :
  Ip.addr_version a = Ip.V6 -> Ip.net_version n = Ip.V6 ->
  Ip.scope_id n = Some zone ->
  Ip.ip_in_range IPv4Network IPv6Network (Ip.Addr a) (Ip.Net n) =
    Ok (Some false).
Proof.
  intros Ha Hn Hz.
  rewrite ip_in_range_objects by congruence.
  rewrite Hn. unfold Ip.same_scope. rewrite Hz.
  now rewrite andb_false_r.
Qed.

(** X2.  For an address object and a network object the answer is [None]
    exactly when their IP versions differ. *)
Theorem ip_in_range_none_iff
        (IPv4Network : string -> option (Z * Z))
        (IPv6Network : string -> option (Z * Z * option string))
        (a : Ip.address) (n : Ip.network) :
  Ip.ip_in_range IPv4Network IPv6Network (Ip.Addr a) (Ip.Net n) = Ok None
  <-> Ip.addr_version a <> Ip.net_version n.
Proof.
  split.
  - intros H Hv. rewrite (ip_in_range_objects _ _ a n Hv) in H. discriminate H.
  - intros Hv. unfold Ip.ip_in_range; cbn [bind Ip.both_of].
    destruct (Ip.addr_version a), (Ip.net_version n);
      try reflexivity; contradiction Hv; reflexivity.
Qed.

Lemma ip_in_range_range_string
      (IPv4Network : string -> option (Z * Z))
      (IPv6Network : string -> option (Z * Z * option string))
      (ip : Ip.value) (r : string) :
  Ip.ip_in_range IPv4Network IPv6Network ip (Ip.Str r) =
  Ip.ip_in_range IPv4Network IPv6Network ip
    (Ip.ip_version IPv4Network IPv6Network r).
Proof.
  unfold Ip.ip_in_range.
  destruct (Ip.ip_version IPv4Network IPv6Network r) eqn:E;
    try reflexivity.
  exfalso. unfold Ip.ip_version in E.
  destruct (IPv4Network r) as [[? ?] |]; [discriminate E |].
  destruct (IPv6Network r) as [[[? ?] ?] |]; discriminate E.
Qed.

(** X3.  Strings stand for the objects they parse to: an [ip] string that
    [ipaddress.IPv4Network] reads as a single host gives, with any range, the
    result of that host's address object; and for every [ip] whatsoever, a
    range given as a string gives the result of whatever [ip_version] makes
    of it. *)
Theorem ip_in_range_strings_as_objects
        (IPv4Network : string -> option (Z * Z))
        (IPv6Network : string -> option (Z * Z * option string))
        (s : string) (a : Z) :
  IPv4Network s = Some (a, 32%Z) ->
  (forall range,
     Ip.ip_in_range IPv4Network IPv6Network (Ip.Str s) range =
     Ip.ip_in_range IPv4Network IPv6Network
       (Ip.Addr (Ip.MkAddress Ip.V4 a)) range)
  /\ (forall ip r,
        Ip.ip_in_range IPv4Network IPv6Network ip (Ip.Str r) =
        Ip.ip_in_range IPv4Network IPv6Network ip
          (Ip.ip_version IPv4Network IPv6Network r)).
Proof.
  intros H4. split.
  - intros range. unfold Ip.ip_in_range, Ip.ip_version at 1.
    rewrite H4. reflexivity.
  - intros ip r. apply ip_in_range_range_string.
Qed.

Lemma ip_in_range_strings_as_objects_witness :
  (fun s : string =>
     if String.eqb s "10.1.2.3" then Some (167838211, 32)%Z else None)
    "10.1.2.3" = Some (167838211, 32)%Z
  /\ (forall range,
        Ip.ip_in_range
          (fun s => if String.eqb s "10.1.2.3"
                    then Some (167838211, 32)%Z else None)
          (fun _ => None) (Ip.Str "10.1.2.3") range =
        Ip.ip_in_range
          (fun s => if String.eqb s "10.1.2.3"
                    then Some (167838211, 32)%Z else None)
          (fun _ => None) (Ip.Addr (Ip.MkAddress Ip.V4 167838211)) range)
  /\ (forall ip r,
        Ip.ip_in_range
          (fun s => if String.eqb s "10.1.2.3"
                    then Some (167838211, 32)%Z else None)
          (fun _ => None) ip (Ip.Str r) =
        Ip.ip_in_range
          (fun s => if String.eqb s "10.1.2.3"
                    then Some (167838211, 32)%Z else None)
          (fun _ => None) ip
          (Ip.ip_version
             (fun s => if String.eqb s "10.1.2.3"
                       then Some (167838211, 32)%Z else None)
             (fun _ => None) r)).
Proof.
  split; [reflexivity |].
  apply (ip_in_range_strings_as_objects
           (fun s => if String.eqb s "10.1.2.3"
                     then Some (167838211, 32)%Z else None)
           (fun _ => None) "10.1.2.3" 167838211).
  reflexivity.
Defined.

(** X4.  An [ip] string that neither constructor accepts makes
    [ip_in_range] raise [AttributeError] (the attribute [prefixlen] of
    [None]), whatever the range; a range string that neither accepts gives
    the answer [None] for an address object. *)
Theorem ip_in_range_unparsable
        (IPv4Network : string -> option (Z * Z))
        (IPv6Network : string -> option (Z * Z * option string))
        (s : string) :
  IPv4Network s = None -> IPv6Network s = None ->
  (forall range,
     Ip.ip_in_range IPv4Network IPv6Network (Ip.Str s) range =
       Raise AttributeError)
  /\ (forall a,
        Ip.ip_in_range IPv4Network IPv6Network (Ip.Addr a) (Ip.Str s) =
          Ok None).
Proof.
  intros H4 H6. split.
  - intros range. unfold Ip.ip_in_range, Ip.ip_version. rewrite H4, H6.
    reflexivity.
  - intros a. unfold Ip.ip_in_range, Ip.ip_version. rewrite H4, H6.
    reflexivity.
Qed.

Lemma ip_in_range_unparsable_witness :
  (fun _ : string => @None (Z * Z)) "not an address" = None
  /\ (fun _ : string => @None (Z * Z * option string)) "not an address" = None
  /\ (forall range,
        Ip.ip_in_range (fun _ => None) (fun _ => None)
          (Ip.Str "not an address") range = Raise AttributeError)
  /\ (forall a,
        Ip.ip_in_range (fun _ => None) (fun _ => None)
          (Ip.Addr a) (Ip.Str "not an address") = Ok None).
Proof.
  split; [reflexivity |]. split; [reflexivity |].
  apply (ip_in_range_unparsable (fun _ => None) (fun _ => None)
           "not an address"); reflexivity.
Defined.

(** ** [get_input]: the loop *)

Lemma body_cases (return_iterable : bool) (help : string)
      (check_function : option (string -> bool)) (user_input : string)
      (temp : Console.value) (console : list Console.event) :
  Console.body return_iterable help check_function user_input temp console =
    match check_function with
    | Some f =>
        if f user_input
        then Console.keep return_iterable user_input temp console
        else Console.Next temp (console ++ [Console.Print help])
    | None =>
        Console.keep return_iterable user_input temp
          (console ++ [Console.Print help])
    end.
Proof.
  unfold Console.body. destruct check_function as [f |]; [| reflexivity].
  destruct (f user_input); [| reflexivity].
  destruct (Console.keep return_iterable user_input temp console); reflexivity.
Qed.

Lemma add_spec (l : list string) (x : string) :
  exists l',
    Console.add (Console.SetVal l) x = Some (Console.SetVal l')
    /\ (forall y, In y l' <-> In y l \/ y = x)
    /\ (NoDup l -> NoDup l').
Proof.
  unfold Console.add.
  destruct (existsb (String.eqb x) l) eqn:E; eexists; (split; [reflexivity |]).
  - apply existsb_exists in E. destruct E as (z & Hz & Hxz).
    apply String.eqb_eq in Hxz; subst z.
    split; [| auto]. intros y; split; [auto |]. intros [H | ->]; assumption.
  - split.
    + intros y. rewrite in_app_iff. simpl. intuition congruence.
    + intros Hnd. apply NoDup_app; [assumption | repeat constructor; auto |].
      intros y Hy [Hxy | []]. subst y.
      assert (Hex : existsb (String.eqb x) l = true).
      { apply existsb_exists. exists x. split; [assumption |].
        apply String.eqb_refl. }
      congruence.
Qed.

Lemma nonempty_eqb (x : string) : x <> "" -> String.eqb x "" = false.
Proof. intros H. now apply String.eqb_neq. Qed.

(** Single-value mode: rejected lines are answered with [help]. *)
Lemma loop_single_rejected (prompt help : string) (f : string -> bool)
      (bad tail : list string) (temp : Console.value)
      (console : list Console.event) :
  Forall (fun l => l <> "" /\ f l = false) bad ->
  Console.loop false prompt help (Some f) (bad ++ tail) temp console =
    Console.loop false prompt help (Some f) tail temp
      (console ++
       flat_map (fun _ => [Console.Prompt prompt; Console.Print help]) bad).
Proof.
  intros H; revert console; induction H as [| l bad [Hne Hf] Hbad IH];
    intros console.
  - simpl. now rewrite app_nil_r.
  - cbn [app Console.loop]. rewrite (nonempty_eqb l Hne), body_cases, Hf.
    rewrite IH. cbn [flat_map]. now rewrite <- !app_assoc.
Qed.

(** Collecting mode: each line before [tail] is answered and, when kept,
    added to the set. *)
Lemma loop_iterable_lines (prompt help : string)
      (check_function : option (string -> bool))
      (lines tail : list string) (l0 : list string)
      (console : list Console.event) :
  Forall (fun l => l <> "") lines ->
  exists l1,
    Console.loop true prompt help check_function (lines ++ tail)
      (Console.SetVal l0) console =
    Console.loop true prompt help check_function tail (Console.SetVal l1)
      (console ++
       flat_map (fun x => Console.Prompt prompt
                          :: answer check_function help x) lines)
    /\ (forall x, In x l1 <->
                  In x l0 \/ (In x lines /\ kept check_function x = true))
    /\ (NoDup l0 -> NoDup l1).
Proof.
  intros H; revert l0 console; induction H as [| l lines Hne Hlines IH];
    intros l0 console.
  - exists l0. simpl. rewrite app_nil_r.
    split; [reflexivity |]. split; [| auto]. intros x; tauto.
  - cbn [app Console.loop]. rewrite (nonempty_eqb l Hne), body_cases.
    destruct (add_spec l0 l) as (la & Ha & Hin & Hnd).
    destruct check_function as [f |]; cbn [answer kept flat_map].
    + destruct (f l) eqn:Hf.
      * unfold Console.keep. rewrite Ha.
        destruct (IH la (console ++ [Console.Prompt prompt]))
          as (l1 & E & Hin1 & Hnd1).
        exists l1. rewrite E. cbn [app]. rewrite <- !app_assoc.
        split; [reflexivity |]. split; [| auto].
        intros x. rewrite Hin1, Hin. simpl.
        split; [intros [[? | ->] | [? ?]]; auto | ].
        intros [? | [[<- | ?] ?]]; auto.
      * destruct (IH l0 ((console ++ [Console.Prompt prompt])
                           ++ [Console.Print help]))
          as (l1 & E & Hin1 & Hnd1).
        exists l1. rewrite E. cbn [app]. rewrite <- !app_assoc.
        split; [reflexivity |]. split; [| auto].
        intros x. rewrite Hin1. simpl.
        split; [intros [? | [? ?]]; auto |].
        intros [? | [[<- | ?] ?]]; auto; congruence.
    + unfold Console.keep. rewrite Ha.
      destruct (IH la ((console ++ [Console.Prompt prompt])
                         ++ [Console.Print help]))
        as (l1 & E & Hin1 & Hnd1).
      exists l1. rewrite E. cbn [app]. rewrite <- !app_assoc.
      split; [reflexivity |]. split; [| auto].
      intros x. rewrite Hin1, Hin. simpl.
      split; [intros [[? | ->] | [? ?]]; auto | ].
      intros [? | [[<- | ?] ?]]; auto.
Qed.

(** X5.  Single-value mode with a validator.  After any number of non-empty
    rejected lines, each answered with [help]: a non-empty accepted line is
    returned under [name] and the lines after it stay unread; an empty line
    returns [None] under [name]; the end of the input raises [EOFError]. *)
Theorem get_input_single_validated (name : string) (prompt : option string)
        (help : string) (f : string -> bool) (bad : list string) :
  Forall (fun l => l <> "" /\ f l = false) bad ->
  (forall v rest, v <> "" -> f v = true ->
     Console.get_input name false prompt help (Some f) (bad ++ v :: rest) =
       Console.Returned [(name, Console.Str v)]
         (flat_map (fun _ => [Console.Prompt (shown_prompt name prompt);
                              Console.Print help]) bad
          ++ [Console.Prompt (shown_prompt name prompt)])
         rest)
  /\ (forall rest,
        Console.get_input name false prompt help (Some f) (bad ++ "" :: rest) =
          Console.Returned [(name, Console.NoneVal)]
            (flat_map (fun _ => [Console.Prompt (shown_prompt name prompt);
                                 Console.Print help]) bad
             ++ [Console.Prompt (shown_prompt name prompt)])
            rest)
  /\ Console.get_input name false prompt help (Some f) bad =
       Console.Raised Console.EOFError
         (flat_map (fun _ => [Console.Prompt (shown_prompt name prompt);
                              Console.Print help]) bad
          ++ [Console.Prompt (shown_prompt name prompt)]).
Proof.
  intros Hbad. unfold Console.get_input. fold (shown_prompt name prompt).
  split; [| split].
  - intros v rest Hv Hf.
    rewrite (loop_single_rejected _ _ _ _ _ _ _ Hbad).
    cbn [Console.loop]. rewrite (nonempty_eqb v Hv), body_cases, Hf.
    reflexivity.
  - intros rest. rewrite (loop_single_rejected _ _ _ _ _ _ _ Hbad).
    reflexivity.
  - rewrite <- (app_nil_r bad) at 1.
    rewrite (loop_single_rejected _ _ _ _ _ _ _ Hbad). reflexivity.
Qed.

Lemma get_input_single_validated_witness :
  Forall (fun l => l <> "" /\ String.eqb "y" l = false) ["maybe"; "n"]
  /\ (forall v rest, v <> "" -> String.eqb "y" v = true ->
        Console.get_input "ok" false None "y or nothing" (Some (String.eqb "y"))
          (["maybe"; "n"] ++ v :: rest) =
          Console.Returned [("ok", Console.Str v)]
            (flat_map (fun _ => [Console.Prompt (shown_prompt "ok" None);
                                 Console.Print "y or nothing"]) ["maybe"; "n"]
             ++ [Console.Prompt (shown_prompt "ok" None)])
            rest)
  /\ (forall rest,
        Console.get_input "ok" false None "y or nothing" (Some (String.eqb "y"))
          (["maybe"; "n"] ++ "" :: rest) =
          Console.Returned [("ok", Console.NoneVal)]
            (flat_map (fun _ => [Console.Prompt (shown_prompt "ok" None);
                                 Console.Print "y or nothing"]) ["maybe"; "n"]
             ++ [Console.Prompt (shown_prompt "ok" None)])
            rest)
  /\ Console.get_input "ok" false None "y or nothing" (Some (String.eqb "y"))
       ["maybe"; "n"] =
       Console.Raised Console.EOFError
         (flat_map (fun _ => [Console.Prompt (shown_prompt "ok" None);
                              Console.Print "y or nothing"]) ["maybe"; "n"]
          ++ [Console.Prompt (shown_prompt "ok" None)]).
Proof.
  assert (H : Forall (fun l => l <> "" /\ String.eqb "y" l = false)
                ["maybe"; "n"])
    by (repeat constructor; discriminate).
  split; [exact H |].
  exact (get_input_single_validated "ok" None "y or nothing"
           (String.eqb "y") ["maybe"; "n"] H).
Defined.

(** X6.  Collecting mode with a validator.  Given non-empty lines and then
    an empty one, the set returned under [name] holds exactly the accepted
    lines, each once; [help] is printed once for each rejected line and the
    lines after the empty one stay unread.  If the input ends with no empty
    line, [EOFError] is raised and nothing is returned. *)
Theorem get_input_iterable_validated (name : string) (prompt : option string)
        (help : string) (f : string -> bool) (lines : list string) :
  Forall (fun l => l <> "") lines ->
  (forall rest, exists l,
     Console.get_input name true prompt help (Some f) (lines ++ "" :: rest) =
       Console.Returned [(name, Console.SetVal l)]
         (flat_map (fun x => Console.Prompt (shown_prompt name prompt)
                             :: (if f x then [] else [Console.Print help]))
                   lines
          ++ [Console.Prompt (shown_prompt name prompt)])
         rest
     /\ NoDup l
     /\ forall x, In x l <-> In x lines /\ f x = true)
  /\ Console.get_input name true prompt help (Some f) lines =
       Console.Raised Console.EOFError
         (flat_map (fun x => Console.Prompt (shown_prompt name prompt)
                             :: (if f x then [] else [Console.Print help]))
                   lines
          ++ [Console.Prompt (shown_prompt name prompt)]).
Proof.
  intros Hl. unfold Console.get_input. fold (shown_prompt name prompt).
  split.
  - intros rest.
    destruct (loop_iterable_lines (shown_prompt name prompt) help (Some f)
                lines ("" :: rest) [] [] Hl) as (l & E & Hin & Hnd).
    exists l. rewrite E. cbn [Console.loop String.eqb app answer].
    split; [reflexivity |]. split; [apply Hnd; constructor |].
    intros x. rewrite Hin. simpl. tauto.
  - destruct (loop_iterable_lines (shown_prompt name prompt) help (Some f)
                lines [] [] [] Hl) as (l & E & _).
    rewrite app_nil_r in E. rewrite E. reflexivity.
Qed.

Lemma get_input_iterable_validated_witness :
  Forall (fun l => l <> "") ["a"; "bb"; "a"; "cc"]
  /\ (forall rest, exists l,
        Console.get_input "tags" true (Some "> ") "one letter"
          (Some (fun s => Nat.eqb (String.length s) 1))
          (["a"; "bb"; "a"; "cc"] ++ "" :: rest) =
          Console.Returned [("tags", Console.SetVal l)]
            (flat_map (fun x => Console.Prompt (shown_prompt "tags" (Some "> "))
                                :: (if Nat.eqb (String.length x) 1 then []
                                    else [Console.Print "one letter"]))
                      ["a"; "bb"; "a"; "cc"]
             ++ [Console.Prompt (shown_prompt "tags" (Some "> "))])
            rest
        /\ NoDup l
        /\ forall x, In x l <->
                     In x ["a"; "bb"; "a"; "cc"]
                     /\ Nat.eqb (String.length x) 1 = true)
  /\ Console.get_input "tags" true (Some "> ") "one letter"
       (Some (fun s => Nat.eqb (String.length s) 1))
       ["a"; "bb"; "a"; "cc"] =
       Console.Raised Console.EOFError
         (flat_map (fun x => Console.Prompt (shown_prompt "tags" (Some "> "))
                             :: (if Nat.eqb (String.length x) 1 then []
                                 else [Console.Print "one letter"]))
                   ["a"; "bb"; "a"; "cc"]
          ++ [Console.Prompt (shown_prompt "tags" (Some "> "))]).
Proof.
  assert (H : Forall (fun l => l <> "") ["a"; "bb"; "a"; "cc"])
    by (repeat constructor; discriminate).
  split; [exact H |].
  exact (get_input_iterable_validated "tags" (Some "> ") "one letter"
           (fun s => Nat.eqb (String.length s) 1) ["a"; "bb"; "a"; "cc"] H).
Defined.

(** X7.  Without a validator every non-empty line is taken, and [help] is
    printed after each of them all the same: in single-value mode the first
    line is returned after one [help]; in collecting mode the set holds all
    the lines before the empty one, with one [help] per line. *)
Theorem get_input_no_validator (name : string) (prompt : option string)
        (help : string) (v : string) (lines : list string) :
  v <> "" -> Forall (fun l => l <> "") lines ->
  (forall rest,
     Console.get_input name false prompt help None (v :: rest) =
       Console.Returned [(name, Console.Str v)]
         [Console.Prompt (shown_prompt name prompt); Console.Print help]
         rest)
  /\ (forall rest, exists l,
        Console.get_input name true prompt help None (lines ++ "" :: rest) =
          Console.Returned [(name, Console.SetVal l)]
            (flat_map (fun _ => [Console.Prompt (shown_prompt name prompt);
                                 Console.Print help]) lines
             ++ [Console.Prompt (shown_prompt name prompt)])
            rest
        /\ NoDup l
        /\ forall x, In x l <-> In x lines).
Proof.
  intros Hv Hl. unfold Console.get_input. fold (shown_prompt name prompt).
  split.
  - intros rest. cbn [Console.loop]. rewrite (nonempty_eqb v Hv), body_cases.
    reflexivity.
  - intros rest.
    destruct (loop_iterable_lines (shown_prompt name prompt) help None
                lines ("" :: rest) [] [] Hl) as (l & E & Hin & Hnd).
    exists l. rewrite E. cbn [Console.loop String.eqb app answer].
    split; [reflexivity |]. split; [apply Hnd; constructor |].
    intros x. rewrite Hin. simpl. tauto.
Qed.

Lemma get_input_no_validator_witness :
  "north" <> "" /\ Forall (fun l => l <> "") ["n"; "s"]
  /\ (forall rest,
        Console.get_input "dir" false None "invalid input" None
          ("north" :: rest) =
          Console.Returned [("dir", Console.Str "north")]
            [Console.Prompt (shown_prompt "dir" None);
             Console.Print "invalid input"]
            rest)
  /\ (forall rest, exists l,
        Console.get_input "dir" true None "invalid input" None
          (["n"; "s"] ++ "" :: rest) =
          Console.Returned [("dir", Console.SetVal l)]
            (flat_map (fun _ => [Console.Prompt (shown_prompt "dir" None);
                                 Console.Print "invalid input"]) ["n"; "s"]
             ++ [Console.Prompt (shown_prompt "dir" None)])
            rest
        /\ NoDup l
        /\ forall x, In x l <-> In x ["n"; "s"]).
Proof.
  assert (Hv : "north" <> "") by discriminate.
  assert (Hl : Forall (fun l => l <> "") ["n"; "s"])
    by (repeat constructor; discriminate).
  split; [exact Hv |]. split; [exact Hl |].
  exact (get_input_no_validator "dir" None "invalid input" "north"
           ["n"; "s"] Hv Hl).
Defined.

Lemma split_first_empty (stdin : list string) :
  (exists lines rest,
     stdin = lines ++ "" :: rest /\ Forall (fun l => l <> "") lines)
  \/ Forall (fun l => l <> "") stdin.
Proof.
  induction stdin as [| v stdin IH]; [right; constructor |].
  destruct (string_dec v "") as [-> | Hv].
  { left. exists [], stdin. split; [reflexivity | constructor]. }
  destruct IH as [(lines & rest & -> & Hl) | Hall].
  - left. exists (v :: lines), rest. split; [reflexivity |].
    constructor; assumption.
  - right. constructor; assumption.
Qed.

Lemma split_first_stop (f : string -> bool) (stdin : list string) :
  exists bad tail,
    stdin = bad ++ tail
    /\ Forall (fun l => l <> "" /\ f l = false) bad
    /\ match tail with
       | [] => True
       | v :: _ => v = "" \/ f v = true
       end.
Proof.
  induction stdin as [| v stdin IH].
  { exists [], []. repeat split; constructor. }
  destruct (string_dec v "") as [-> | Hv].
  { exists [], ("" :: stdin). repeat split; [constructor | now left]. }
  destruct (f v) eqn:Hf.
  { exists [], (v :: stdin). repeat split; [constructor | now right]. }
  destruct IH as (bad & tail & -> & Hbad & Htail).
  exists (v :: bad), tail. split; [reflexivity |].
  split; [constructor; auto | exact Htail].
Qed.

Lemma kept_accepted (check_function : option (string -> bool)) (x : string) :
  kept check_function x = true -> accepted check_function x.
Proof. destruct check_function; simpl; auto. Qed.

Lemma forall_not_in_empty (stdin : list string) :
  Forall (fun l => l <> "") stdin -> ~ In "" stdin.
Proof.
  intros H Hin. rewrite Forall_forall in H. now apply (H "" Hin).
Qed.

(** X8.  Whatever is typed, [get_input] either returns a dictionary with the
    single key [name] or raises [EOFError], and the latter only when the
    input holds no empty line.  The value returned is, in collecting mode, a
    set of non-empty input lines that the validator (if any) accepted, and,
    in single-value mode, [None] or one such line; the unread lines are a
    suffix of the input. *)
Theorem get_input_outcome (name : string) (return_iterable : bool)
        (prompt : option string) (help : string)
        (check_function : option (string -> bool)) (stdin : list string) :
  match Console.get_input name return_iterable prompt help check_function
          stdin with
  | Console.Returned return_dict _ rest =>
      (exists read, stdin = read ++ rest)
      /\ exists value,
           return_dict = [(name, value)]
           /\ if return_iterable
              then exists l,
                     value = Console.SetVal l /\ NoDup l
                     /\ forall x, In x l ->
                          x <> "" /\ In x stdin /\ accepted check_function x
              else value = Console.NoneVal
                   \/ exists s, value = Console.Str s /\ s <> ""
                                /\ In s stdin /\ accepted check_function s
  | Console.Raised e _ => e = Console.EOFError /\ ~ In "" stdin
  end.
Proof.
  unfold Console.get_input. fold (shown_prompt name prompt).
  destruct return_iterable.
  - destruct (split_first_empty stdin) as [(lines & rest & -> & Hl) | Hall].
    + destruct (loop_iterable_lines (shown_prompt name prompt) help
                  check_function lines ("" :: rest) [] [] Hl)
        as (l & E & Hin & Hnd).
      rewrite E. cbn [Console.loop String.eqb].
      split; [exists (lines ++ [""]); now rewrite <- app_assoc |].
      eexists; split; [reflexivity |].
      exists l. split; [reflexivity |]. split; [apply Hnd; constructor |].
      intros x Hx. apply Hin in Hx. destruct Hx as [[] | [Hx Hk]].
      rewrite Forall_forall in Hl.
      split; [now apply Hl |].
      split; [apply in_or_app; now left | now apply kept_accepted].
    + destruct (loop_iterable_lines (shown_prompt name prompt) help
                  check_function stdin [] [] [] Hall) as (l & E & _).
      rewrite app_nil_r in E. rewrite E. cbn [Console.loop].
      split; [reflexivity | now apply forall_not_in_empty].
  - destruct check_function as [f |].
    + destruct (split_first_stop f stdin) as (bad & tail & -> & Hbad & Htail).
      rewrite (loop_single_rejected _ _ _ _ _ _ _ Hbad).
      destruct tail as [| v rest].
      * cbn [Console.loop]. split; [reflexivity |].
        rewrite app_nil_r. apply forall_not_in_empty.
        eapply Forall_impl; [| exact Hbad]. intros a [Ha _]; exact Ha.
      * cbn [Console.loop].
        destruct (String.eqb_spec v "") as [-> | Hv].
        { split; [exists (bad ++ [""]); now rewrite <- app_assoc |].
          eexists; split; [reflexivity |]. now left. }
        destruct Htail as [Hv' | Hf]; [contradiction |].
        rewrite body_cases, Hf. cbn [Console.keep].
        split; [exists (bad ++ [v]); now rewrite <- app_assoc |].
        eexists; split; [reflexivity |]. right. exists v.
        split; [reflexivity |]. split; [assumption |].
        split; [apply in_or_app; right; now left | exact Hf].
    + destruct stdin as [| v rest]; cbn [Console.loop].
      * split; [reflexivity | intros []].
      * destruct (String.eqb_spec v "") as [-> | Hv].
        { split; [now exists [""] |].
          eexists; split; [reflexivity |]. now left. }
        rewrite body_cases. cbn [Console.keep].
        split; [now exists [v] |].
        eexists; split; [reflexivity |]. right. exists v.
        split; [reflexivity |]. split; [assumption |].
        split; [now left | exact I].
Qed.

(** ** [expand_tn]: order and distinctness of the yielded strings *)

(** X9.  The strings of one expansion come in strictly ascending order, as
    Python compares strings; in particular no string is yielded twice. *)
Theorem expand_tn_ascending (tn : string) :
  exists out,
    expand_tn tn = Ok out
    /\ StronglySorted string_lt out
    /\ NoDup out.
Proof.
  destruct (tokens_total tn) as [ts H].
  pose proof (tokenizes_ok _ _ H) as Hok.
  eexists. split; [apply expand_tn_tokens; exact H |].
  assert (Hs : StronglySorted string_lt
                 (map digits_string (cartesian (map digit_set ts)))).
  { apply sorted_map_in with (R := lex_lt).
    - intros x y Hx Hy Hxy. apply lex_lt_compare; [exact Hxy | |];
        eapply tuple_small; eassumption.
    - apply sorted_cartesian, Forall_map, Forall_forall.
      intros t _. apply sorted_digit_set. }
  split; [exact Hs |].
  apply sorted_nodup with (R := string_lt); [| exact Hs].
  intros s Hlt. unfold string_lt in Hlt.
  rewrite string_compare_refl in Hlt. discriminate Hlt.
Qed.

(** ** [expand_tn]: plain numbers *)

Lemma digit_chr_val (c : ascii) :
  is_digit c = true -> digit_chr (digit_val c) = c.
Proof. intros H. digit_cases H; reflexivity. Qed.

Lemma tokenizes_digits (s : list ascii) :
  Forall (fun c => is_digit c = true) s -> Tokenizes s (map TLit s).
Proof.
  induction 1 as [| c s Hc Hs IH]; [constructor |].
  simpl. eapply Tok_token; [apply Rec_lit; exact Hc | exact IH].
Qed.

Lemma cartesian_singletons {A : Type} (l : list A) :
  cartesian (map (fun d => [d]) l) = [l].
Proof.
  induction l as [| d l IH]; [reflexivity |].
  cbn [map cartesian flat_map]. rewrite IH. reflexivity.
Qed.

Lemma expand_digits (tn : string) :
  Forall (fun c => is_digit c = true) (list_ascii_of_string tn) ->
  expand_tn tn = Ok [tn].
Proof.
  intros H.
  rewrite (expand_tn_tokens tn (map TLit (list_ascii_of_string tn)))
    by (apply tokenizes_digits; exact H).
  rewrite map_map. cbn [digit_set].
  rewrite <- (map_map digit_val (fun d => [d])), cartesian_singletons.
  cbn [map]. unfold digits_string. rewrite map_map.
  rewrite (map_ext_in _ (fun c => c)).
  - now rewrite map_id, string_of_list_ascii_of_string.
  - intros c Hc. apply digit_chr_val.
    rewrite Forall_forall in H. now apply H.
Qed.

(** X10.  A pattern made of decimal digits only denotes one number: the
    expansion yields the pattern itself and nothing else. *)
Theorem expand_tn_plain_number (tn : string) :
  Forall (fun c => is_digit c = true) (list_ascii_of_string tn) ->
  expand_tn tn = Ok [tn].
Proof. exact (expand_digits tn). Qed.

Lemma expand_tn_plain_number_witness :
  Forall (fun c => is_digit c = true) (list_ascii_of_string "13165551010")
  /\ expand_tn "13165551010" = Ok ["13165551010"].
Proof.
  assert (H : Forall (fun c => is_digit c = true)
                (list_ascii_of_string "13165551010"))
    by (repeat constructor).
  split; [exact H |].
  exact (expand_tn_plain_number "13165551010" H).
Defined.

(** X11.  Every yielded string is a plain number: all its characters are
    decimal digits, so no wildcard, bracket or skipped character of the
    pattern reaches the output, and expanding the string again yields just
    that string. *)
Theorem expand_tn_output_plain (tn : string) :
  exists out,
    expand_tn tn = Ok out
    /\ forall s, In s out ->
         Forall (fun c => is_digit c = true) (list_ascii_of_string s)
         /\ expand_tn s = Ok [s].
Proof.
  destruct (tokens_total tn) as [ts H].
  pose proof (tokenizes_ok _ _ H) as Hok.
  eexists. split; [apply expand_tn_tokens; exact H |].
  intros s Hs. apply in_map_iff in Hs. destruct Hs as (x & <- & Hx).
  pose proof (tuple_small ts x Hok Hx) as Hsmall.
  assert (Hd : Forall (fun c => is_digit c = true)
                 (list_ascii_of_string (digits_string x))).
  { unfold digits_string. rewrite list_ascii_of_string_of_list_ascii.
    apply Forall_map. eapply Forall_impl; [| exact Hsmall].
    intros d Hdd. now apply is_digit_chr. }
  split; [exact Hd | now apply expand_digits].
Qed.

(** ** [expand_tn]: the calls of [next] one by one *)

Lemma advance_finished (n : nat) :
  advance n Generator.Finished = Generator.Finished.
Proof. induction n as [| n IH]; [reflexivity | exact IH]. Qed.

Lemma next_after_suspended (n : nat) (pending : list (list Z)) :
  fst (Generator.next (advance n (Generator.Suspended pending))) =
    match nth_error pending n with
    | Some x => Generator.Yield (render x)
    | None => Generator.StopIteration
    end.
Proof.
  revert pending; induction n as [| n IH]; intros pending.
  - destruct pending; reflexivity.
  - destruct pending as [| x pending]; cbn [advance Generator.next
                                             Generator.resume snd nth_error].
    + now rewrite advance_finished.
    + apply IH.
Qed.

(** X12.  The generator is lazy and then exhausted: the call of [next]
    number [n + 1] yields the string number [n] of the expansion, and every
    call past the last string signals [StopIteration]. *)
Theorem expand_tn_next_calls (tn : string) :
  exists out,
    expand_tn tn = Ok out
    /\ forall n,
         fst (Generator.next (advance n (Generator.Created tn))) =
           match nth_error out n with
           | Some s => Generator.Yield s
           | None => Generator.StopIteration
           end.
Proof.
  destruct (tokens_total tn) as [ts H].
  pose proof (parse_ranges_tokens _ _ H) as Hp.
  eexists. split.
  { unfold expand_tn. rewrite Hp. reflexivity. }
  intros n.
  assert (E : fst (Generator.next (advance n (Generator.Created tn))) =
              fst (Generator.next
                     (advance n (Generator.Suspended
                                   (Py.product (map digit_set ts)))))).
  { destruct n as [| n]; cbn [advance Generator.next]; rewrite Hp;
      reflexivity. }
  rewrite E, next_after_suspended, nth_error_map.
  destruct (nth_error (Py.product (map digit_set ts)) n); reflexivity.
Qed.

(** ** [expand_tn]: patterns put end to end *)

Lemma recognizes_app (s : list ascii) (t : token) (rest s2 : list ascii) :
  Recognizes s t rest -> Recognizes (s ++ s2) t (rest ++ s2).
Proof. intros H; inversion H; subst; simpl; constructor; assumption. Qed.

Lemma recognizes_split (s : list ascii) (t : token) (rest : list ascii) :
  Recognizes s t rest -> exists pre, s = pre ++ rest.
Proof.
  intros H; inversion H; subst.
  - now exists ["["; a; "-"; b; "]"]%char.
  - now exists ["X"]%char.
  - now exists [d].
Qed.

Lemma in_last_suffix {A : Type} (n : nat) (pre rest : list A) (c : A) :
  In c (skipn (List.length rest - n) rest) ->
  In c (skipn (List.length (pre ++ rest) - n) (pre ++ rest)).
Proof.
  intros H. rewrite skipn_app, length_app. apply in_or_app; right.
  replace (List.length pre + List.length rest - n - List.length pre)
    with (List.length rest - n) by lia.
  exact H.
Qed.

Lemma tokenizes_app (s1 s2 : list ascii) (ts1 ts2 : list token) :
  Tokenizes s1 ts1 -> Tokenizes s2 ts2 ->
  ~ In "["%char (skipn (List.length s1 - 4) s1) ->
  Tokenizes (s1 ++ s2) (ts1 ++ ts2).
Proof.
  intros H1 H2.
  induction H1 as [| s t rest ts Hr Ht IH | c rest ts Hn Ht IH]; intros Hlast.
  - exact H2.
  - simpl. eapply Tok_token; [apply recognizes_app; exact Hr |].
    apply IH. intros Hin. apply Hlast.
    destruct (recognizes_split _ _ _ Hr) as [pre ->].
    now apply in_last_suffix.
  - simpl. apply Tok_skip.
    + intros t r Hr.
      inversion Hr as [a b r' Ha Hb E | r' | d r' Hd]; subst.
      * destruct rest as [| x1 [| x2 [| x3 [| x4 rest]]]];
          try (apply Hlast; simpl; now left).
        simpl in *.
        match goal with
        | H : _ :: _ = _ :: _ |- _ => inversion H; subst
        end.
        eapply Hn. apply Rec_range; eassumption.
      * eapply Hn. apply Rec_wild.
      * eapply Hn. apply Rec_lit; eassumption.
    + apply IH. intros Hin. apply Hlast.
      now apply (in_last_suffix 4 [c] rest).
Qed.

Lemma cartesian_app {A : Type} (p1 p2 : list (list A)) :
  cartesian (p1 ++ p2) =
    flat_map (fun x => map (app x) (cartesian p2)) (cartesian p1).
Proof.
  induction p1 as [| p p1 IH].
  - simpl. now rewrite map_id, app_nil_r.
  - cbn [app cartesian]. rewrite IH, flat_map_flat_map.
    apply flat_map_ext; intros y.
    rewrite map_flat_map, flat_map_map. apply flat_map_ext; intros x.
    now rewrite map_map.
Qed.

Lemma digits_string_app (x y : list Z) :
  digits_string (x ++ y) = (digits_string x ++ digits_string y)%string.
Proof.
  unfold digits_string. induction x as [| d x IH]; [reflexivity |].
  simpl. now rewrite IH.
Qed.

Lemma length_list_ascii_of_string (s : string) :
  List.length (list_ascii_of_string s) = String.length s.
Proof. induction s as [| c s IH]; simpl; [reflexivity | now rewrite IH]. Qed.

(** X13.  Patterns compose: when no opening bracket stands among the last
    four characters of the first pattern (so no range can straddle the
    seam), the expansion of the two patterns put end to end is every string
    of the first followed by every string of the second, the second varying
    fastest. *)
Theorem expand_tn_concat (tn1 tn2 : string) :
  ~ In "["%char (last_chars 4 tn1) ->
  exists out1 out2,
    expand_tn tn1 = Ok out1
    /\ expand_tn tn2 = Ok out2
    /\ expand_tn (tn1 ++ tn2) =
         Ok (flat_map (fun a => map (fun b => (a ++ b)%string) out2) out1).
Proof.
  intros Hlast.
  destruct (tokens_total tn1) as [ts1 H1].
  destruct (tokens_total tn2) as [ts2 H2].
  assert (H : Tokens (tn1 ++ tn2) (ts1 ++ ts2)).
  { unfold Tokens. rewrite list_ascii_of_string_app.
    apply tokenizes_app; [exact H1 | exact H2 |].
    unfold last_chars in Hlast.
    now rewrite length_list_ascii_of_string. }
  eexists. eexists.
  split; [apply expand_tn_tokens; exact H1 |].
  split; [apply expand_tn_tokens; exact H2 |].
  rewrite (expand_tn_tokens _ _ H). f_equal.
  rewrite map_app, cartesian_app, map_flat_map, flat_map_map.
  apply flat_map_ext; intros x.
  rewrite !map_map. apply map_ext; intros y. apply digits_string_app.
Qed.

Lemma expand_tn_concat_witness :
  ~ In "["%char (last_chars 4 "1316555[1-2]")
  /\ exists out1 out2,
       expand_tn "1316555[1-2]" = Ok out1
       /\ expand_tn "X[4-8]" = Ok out2
       /\ expand_tn ("1316555[1-2]" ++ "X[4-8]") =
            Ok (flat_map (fun a => map (fun b => (a ++ b)%string) out2) out1).
Proof.
  assert (H : ~ In "["%char (last_chars 4 "1316555[1-2]")).
  { vm_compute. intros [E | [E | [E | [E | []]]]]; discriminate E. }
  split; [exact H |].
  exact (expand_tn_concat "1316555[1-2]" "X[4-8]" H).
Defined.

(** ** [expand_tn]: how large an expansion can get *)

Lemma tokenizes_length (s : list ascii) (ts : list token) :
  Tokenizes s ts -> List.length ts <= List.length s.
Proof.
  induction 1 as [| s t rest ts Hr Ht IH | c rest ts Hn Ht IH]; simpl.
  - lia.
  - pose proof (recognizes_shorter _ _ _ Hr). lia.
  - lia.
Qed.

Lemma length_digit_set_le (t : token) : List.length (digit_set t) <= 10.
Proof.
  destruct t as [a b | | d]; simpl; try lia.
  unfold interval. apply (filter_length_le _ all_digits).
Qed.

Lemma size_le_pow (ts : list token) :
  fold_right Nat.mul 1 (map (@List.length Z) (map digit_set ts)) <=
    10 ^ List.length ts.
Proof.
  induction ts as [| t ts IH]; [simpl; lia |].
  cbn [map fold_right List.length]. rewrite Nat.pow_succ_r'.
  apply Nat.mul_le_mono; [apply length_digit_set_le | exact IH].
Qed.

(** X14.  An expansion is bounded by the pattern: a pattern with [k]
    recognized tokens yields at most [10 ^ k] strings, and [k] is at most
    the length of the pattern. *)
Theorem expand_tn_size_bound (tn : string) :
  exists out,
    expand_tn tn = Ok out
    /\ List.length out <= 10 ^ List.length (Re.finditer FULL_NUMBER_RE tn)
    /\ List.length (Re.finditer FULL_NUMBER_RE tn) <= String.length tn.
Proof.
  destruct (tokens_total tn) as [ts H].
  eexists. split; [apply expand_tn_tokens; exact H |].
  unfold Re.finditer. rewrite (finditer_tokens _ _ H), !length_map.
  rewrite length_cartesian. split; [apply size_le_pow |].
  rewrite <- length_list_ascii_of_string. now apply tokenizes_length.
Qed.

(** ** [expand_tn]: formatting characters *)

Lemma tokenizes_no_bracket (s : list ascii) :
  ~ In "["%char s ->
  Tokenizes s (map token_of_char (filter significant s)).
Proof.
  induction s as [| c s IH]; intros Hb; [constructor |].
  assert (Hs : ~ In "["%char s) by (intros Hin; apply Hb; now right).
  assert (Hc : c <> "["%char) by (intros ->; apply Hb; now left).
  cbn [filter]. unfold significant at 1.
  destruct (is_digit c) eqn:Hd; cbn [orb].
  - cbn [map]. unfold token_of_char at 1.
    destruct (Ascii.eqb c "X") eqn:Hx.
    { apply Ascii.eqb_eq in Hx; subst c. discriminate Hd. }
    eapply Tok_token; [apply Rec_lit; exact Hd | now apply IH].
  - destruct (Ascii.eqb c "X") eqn:Hx.
    + cbn [map]. unfold token_of_char at 1. rewrite Hx.
      apply Ascii.eqb_eq in Hx; subst c.
      eapply Tok_token; [apply Rec_wild | now apply IH].
    + apply Tok_skip; [| now apply IH].
      intros t r Hr; inversion Hr; subst; try congruence.
      now rewrite Ascii.eqb_refl in Hx.
Qed.

Lemma filter_significant_no_bracket (s : list ascii) :
  ~ In "["%char (filter significant s).
Proof.
  intros Hin. apply filter_In in Hin. destruct Hin as [_ H]. discriminate H.
Qed.

Lemma filter_idem {A : Type} (f : A -> bool) (l : list A) :
  filter f (filter f l) = filter f l.
Proof.
  induction l as [| a l IH]; [reflexivity |].
  simpl. destruct (f a) eqn:E; [| exact IH].
  simpl. now rewrite E, IH.
Qed.

(** X15.  In a pattern without an opening bracket, formatting characters do
    not count: the expansion is that of the pattern with every character
    other than the digits and [X] removed. *)
Theorem expand_tn_ignores_separators (tn : string) :
  ~ In "["%char (list_ascii_of_string tn) ->
  expand_tn tn = expand_tn (strip tn).
Proof.
  intros Hb.
  rewrite (expand_tn_tokens tn _ (tokenizes_no_bracket _ Hb)).
  assert (H : Tokens (strip tn)
                (map token_of_char
                   (filter significant (list_ascii_of_string tn)))).
  { unfold Tokens, strip. rewrite list_ascii_of_string_of_list_ascii.
    rewrite <- (filter_idem significant (list_ascii_of_string tn)) at 2.
    apply tokenizes_no_bracket, filter_significant_no_bracket. }
  now rewrite (expand_tn_tokens _ _ H).
Qed.

Lemma expand_tn_ignores_separators_witness :
  ~ In "["%char (list_ascii_of_string "+1 (316) 555-10XX")
  /\ expand_tn "+1 (316) 555-10XX" = expand_tn (strip "+1 (316) 555-10XX").
Proof.
  assert (H : ~ In "["%char (list_ascii_of_string "+1 (316) 555-10XX")).
  { simpl. intros Hin.
    repeat (destruct Hin as [E | Hin]; [discriminate E |]). exact Hin. }
  split; [exact H |].
  exact (expand_tn_ignores_separators "+1 (316) 555-10XX" H).
Defined.
